(** * Textbook RSA arithmetic: a shallow embedding and its properties

    The repository holds two copies of the same RSA helper module:
    - [src/crypto/asymmetric/rsa/rsa.py], embedded as [Module Rsa];
    - [src/crypto/rsa.py], the older copy, embedded as [Module RsaOld].

    Python integers are unbounded, so they are [Z]; [%] and [//] are the
    floor operations, which is what [Z.modulo] and [Z.div] compute for a
    non-zero divisor.  A Python call either returns a value or raises, so
    every function lives in the [result] monad below.  The [log] flag only
    prints and is left out. *)

From Stdlib Require Import ZArith Lia List Bool String Ascii.
From Stdlib Require Import Zcong Zmod.ZmodInv.
From Stdlib Require Import Sorting.Permutation.
Import ListNotations.

#[local] Open Scope string_scope.
#[local] Open Scope Z_scope.

(** ** Python values, exceptions and built-in operations *)

Module Py.

(** The exceptions the two modules can raise.  The first four are the
    [raise Exception(...)] sites of the source, told apart by what their
    message is about (its wording differs a little between the two
    modules); the others are raised by the interpreter itself. *)
Inductive exn : Type :=
| InvalidInput      (* "Cannot compute modulus n: ..." / "Cannot compute phi: ..." *)
| InvalidMethod     (* "Unknown method ... to compute phi(n)" *)
| InvalidExponent   (* "Cannot compute private key d: Invalid exponent ..." *)
| NotCoprime        (* "Modular inverse does not exist: ..." *)
| StopIteration     (* next() on an exhausted generator *)
| ZeroDivisionError (* x % 0, x // 0 *)
| TypeError         (* arithmetic on None, *None *)
| ValueError        (* pow(x, y, 0), pow(x, -y, m) with x not invertible *)
| RecursionError.   (* the recursion did not finish within its fuel *)

Inductive result (A : Type) : Type :=
| Ok (a : A)
| Raise (e : exn).

Arguments Ok {A} a.
Arguments Raise {A} e.

Definition bind {A B : Type} (r : result A) (k : A -> result B) : result B :=
  match r with
  | Ok a => k a
  | Raise e => Raise e
  end.

Definition fmap {A B : Type} (f : A -> B) (r : result A) : result B :=
  bind r (fun a => Ok (f a)).

Definition is_ok {A : Type} (r : result A) : bool :=
  match r with Ok _ => true | Raise _ => false end.

(** [x % y] *)
Definition py_mod (x y : Z) : result Z :=
  if y =? 0 then Raise ZeroDivisionError else Ok (x mod y).

(** [x // y] *)
Definition py_floordiv (x y : Z) : result Z :=
  if y =? 0 then Raise ZeroDivisionError else Ok (x / y).

(** [pow(base, exp, mod)] on integers.  A negative exponent inverts the
    base modulo [|mod|] first (Python 3.8 and later). *)
Definition py_pow (base exp modulus : Z) : result Z :=
  if modulus =? 0 then Raise ValueError
  else if exp <? 0 then
    if Z.gcd base modulus =? 1
    then Ok ((Z.invmod base (Z.abs modulus) ^ (- exp)) mod modulus)
    else Raise ValueError
  else Ok ((base ^ exp) mod modulus).

(** [str.lower()], on the ASCII letters; no other character lowers to a
    letter of ["euler"] or ["carmichael"]. *)
Definition lower_ascii (c : ascii) : ascii :=
  let n := nat_of_ascii c in
  if ((65 <=? n) && (n <=? 90))%nat then ascii_of_nat (n + 32) else c.

Fixpoint lower (s : string) : string :=
  match s with
  | EmptyString => EmptyString
  | String c rest => String (lower_ascii c) (lower rest)
  end.

(** [x in {a, b}] on strings. *)
Definition str_in (x : string) (xs : list string) : bool :=
  existsb (String.eqb x) xs.

(** The default [-1] of the keyword arguments [d], [n] and [phi]. *)
Definition unset : Z := -1.

End Py.

Import Py.

Declare Scope py_scope.
Notation "x <- c ;; k" := (bind c (fun x => k))
  (at level 61, c at next level, right associativity) : py_scope.
Notation "' pat <- c ;; k" := (bind c (fun x => match x with pat => k end))
  (at level 61, pat pattern, c at next level, right associativity) : py_scope.
#[local] Open Scope py_scope.

(** ** src/crypto/asymmetric/rsa/rsa.py *)

Module Rsa.

Definition PHI_EULER_TOTIENT : string := "euler".
Definition PHI_CARMICHAEL_TOTIENT : string := "carmichael".

(** [egcd], one recursive call per unit of fuel. *)
Fixpoint egcd_fuel (fuel : nat) (a b : Z) : result (Z * Z * Z) :=
  match fuel with
  | O => Raise RecursionError
  | S fuel' =>
      if a =? 0 then Ok (b, 0, 1)
      else
        r <- py_mod b a ;;
        ' (g, v, u) <- egcd_fuel fuel' r a ;;
        q <- py_floordiv b a ;;
        Ok (g, u - q * v, v)
  end.

(** [egcd(a, b)]: the first argument shrinks in absolute value at every
    call, so [|a| + 1] calls are allowed. *)
Definition egcd (a b : Z) : result (Z * Z * Z) :=
  egcd_fuel (S (Z.to_nat (Z.abs a))) a b.

Definition modinv (a m : Z) : result Z :=
  ' (g, u, _) <- egcd a m ;;
  if negb (g =? 1) then Raise NotCoprime
  else py_mod u m.

Definition lcm (a b : Z) : result Z :=
  py_floordiv (a * b) (Z.gcd a b).

Fixpoint foldl {A B : Type} (operation : A -> B -> result A)
    (accumulator : A) (iterable : list B) : result A :=
  match iterable with
  | [] => Ok accumulator
  | elem :: rest =>
      accumulator' <- operation accumulator elem ;;
      foldl operation accumulator' rest
  end.

(** The generator is the list of the elements it still has to yield:
    [next(generator)] takes the head and leaves the tail to [foldl]. *)
Definition foldl1 {A : Type} (operation : A -> A -> result A)
    (generator : list A) : result A :=
  match generator with
  | [] => Raise StopIteration
  | first :: rest => foldl operation first rest
  end.

Definition prod (factors : list Z) : result Z :=
  foldl (fun a b => Ok (a * b)) 1 factors.

Definition compute_n (factors : list Z) : result Z :=
  if (List.length factors <? 1)%nat then Raise InvalidInput
  else
    n <- prod factors ;;
    if n <? 1 then Raise InvalidInput
    else Ok n.

Definition compute_phi (factors : list Z) (method : string) : result Z :=
  if negb (str_in (lower method) [PHI_EULER_TOTIENT; PHI_CARMICHAEL_TOTIENT])
  then Raise InvalidMethod
  else if (List.length factors <? 1)%nat then Raise InvalidInput
  else if (lower method =? PHI_EULER_TOTIENT)%string
  then prod (map (fun x => x - 1) factors)
  else foldl1 lcm (map (fun x => x - 1) factors).

(** [factors] defaults to [None]; unpacking [*None] is a [TypeError]. *)
Definition compute_d (e phi : Z) (factors : option (list Z))
    (phi_method : string) : result Z :=
  phi' <- (if phi <? 1
           then match factors with
                | Some fs => compute_phi fs phi_method
                | None => Raise TypeError
                end
           else Ok phi) ;;
  if e <? 1 then Raise InvalidExponent
  else modinv e phi'.

(** The private exponent [decrypt] works with after its second [if]:
    [compute_d] is called without [phi_method], hence with its default. *)
Definition decrypt_d (d e : Z) (factors : list Z) (phi : Z)
    (phi_method : string) : result Z :=
  if d <? 1 then compute_d e phi (Some factors) PHI_EULER_TOTIENT
  else Ok d.

Definition decrypt (ct d n e : Z) (factors : list Z) (phi : Z)
    (phi_method : string) : result Z :=
  n' <- (if n <? 1 then compute_n factors else Ok n) ;;
  d' <- decrypt_d d e factors phi phi_method ;;
  py_pow ct d' n'.

Definition encrypt (pt e n : Z) (factors : list Z) : result Z :=
  n' <- (if n <? 1 then compute_n factors else Ok n) ;;
  py_pow pt e n'.

End Rsa.

(** ** src/crypto/rsa.py *)

Module RsaOld.

Definition PHI_EULER_TOTIENT : string := "euler".
Definition PHI_CARMICHAEL_TOTIENT : string := "carmichael".

Fixpoint egcd_fuel (fuel : nat) (a b : Z) : result (Z * Z * Z) :=
  match fuel with
  | O => Raise RecursionError
  | S fuel' =>
      if a =? 0 then Ok (b, 0, 1)
      else
        r <- py_mod b a ;;
        ' (g, y, x) <- egcd_fuel fuel' r a ;;
        q <- py_floordiv b a ;;
        Ok (g, x - q * y, y)
  end.

Definition egcd (a b : Z) : result (Z * Z * Z) :=
  egcd_fuel (S (Z.to_nat (Z.abs a))) a b.

Definition modinv (a m : Z) : result Z :=
  ' (g, x, _) <- egcd a m ;;
  if negb (g =? 1) then Raise NotCoprime
  else py_mod x m.

Definition lcm (a b : Z) : result Z :=
  py_floordiv (a * b) (Z.gcd a b).

Fixpoint foldl {A B : Type} (operation : A -> B -> result A)
    (accumulator : A) (iterable : list B) : result A :=
  match iterable with
  | [] => Ok accumulator
  | elem :: rest =>
      accumulator' <- operation accumulator elem ;;
      foldl operation accumulator' rest
  end.

(** The body is the bare call [foldl(operation, next(generator), generator)]
    with no [return]: the fold runs, its value is dropped, and the function
    returns [None]. *)
Definition foldl1 {A : Type} (operation : A -> A -> result A)
    (generator : list A) : result (option A) :=
  match generator with
  | [] => Raise StopIteration
  | first :: rest =>
      _ <- foldl operation first rest ;;
      Ok None
  end.

Definition prod (factors : list Z) : result Z :=
  foldl (fun a b => Ok (a * b)) 1 factors.

Definition rsa_compute_n (factors : list Z) : result Z :=
  if (List.length factors <? 1)%nat || existsb (fun x => x <? 1) factors
  then Raise InvalidInput
  else prod factors.

(** The value is an integer on the Euler branch and whatever [foldl1]
    returns on the other one. *)
Definition rsa_compute_phi (factors : list Z) (method : string)
    : result (option Z) :=
  if negb (str_in (lower method) ["euler"; "carmichael"])
  then Raise InvalidMethod
  else if (List.length factors <? 1)%nat || existsb (fun x => x <? 1) factors
  then Raise InvalidInput
  else if (lower method =? "euler")%string
  then fmap Some (prod (map (fun x => x - 1) factors))
  else foldl1 lcm (map (fun x => x - 1) factors).

(** When [phi] is [None], [modinv(e, None)] reaches [None % e] in [egcd]
    (here [e >= 1], so [e] is not [0]), a [TypeError]. *)
Definition rsa_compute_d (e phi : Z) (factors : option (list Z))
    (phi_method : string) : result Z :=
  phi' <- (if phi <? 1
           then match factors with
                | Some fs => rsa_compute_phi fs phi_method
                | None => Raise TypeError
                end
           else Ok (Some phi)) ;;
  if e <? 1 then Raise InvalidExponent
  else match phi' with
       | Some m => modinv e m
       | None => Raise TypeError
       end.

Definition rsa_decrypt_d (d e : Z) (factors : list Z) (phi : Z)
    (phi_method : string) : result Z :=
  if d <? 1 then rsa_compute_d e phi (Some factors) PHI_EULER_TOTIENT
  else Ok d.

Definition rsa_decrypt (ct d n e : Z) (factors : list Z) (phi : Z)
    (phi_method : string) : result Z :=
  n' <- (if n <? 1 then rsa_compute_n factors else Ok n) ;;
  d' <- rsa_decrypt_d d e factors phi phi_method ;;
  py_pow ct d' n'.

Definition rsa_encrypt (pt e n : Z) (factors : list Z) : result Z :=
  n' <- (if n <? 1 then rsa_compute_n factors else Ok n) ;;
  py_pow pt e n'.

End RsaOld.

(** * Properties *)

(** Settles the next integer test of the goal from the hypotheses. *)
Ltac branch_test :=
  match goal with
  | |- context [?x <? ?y] => destruct (Z.ltb_spec x y); [try lia | try lia]
  | |- context [?x =? ?y] => destruct (Z.eqb_spec x y); [try lia | try lia]
  end.

(** ** The extended Euclidean algorithm *)

Section Egcd.

(** The sign the recursion gives the first component: the base case
    returns [b] as it is, and [b % a] takes the sign of [a]. *)
Let signed_gcd (a b : Z) : Z :=
  if (0 <? a) || ((a =? 0) && (0 <=? b)) then Z.gcd a b else - Z.gcd a b.

Lemma egcd_fuel_spec (fuel : nat) :
  forall a b, (Z.to_nat (Z.abs a) < fuel)%nat ->
  exists g u v,
    Rsa.egcd_fuel fuel a b = Ok (g, u, v) /\
    a * u + b * v = g /\
    g = signed_gcd a b.
Proof.
  unfold signed_gcd.
  induction fuel as [|fuel IH]; intros a b Hfuel; [lia|].
  cbn [Rsa.egcd_fuel].
  destruct (Z.eqb_spec a 0) as [->|Ha].
  - exists b, 0, 1. repeat split; [lia|].
    rewrite Z.gcd_0_l. cbn [Z.ltb Z.compare orb andb].
    destruct (Z.leb_spec 0 b); lia.
  - unfold py_mod, py_floordiv.
    rewrite (proj2 (Z.eqb_neq a 0) Ha). cbn [bind].
    assert (Hr : Z.abs (b mod a) < Z.abs a).
    { destruct (Z.lt_total a 0) as [Hneg|[?|Hpos]]; [|lia|].
      - pose proof (Z.mod_neg_bound b a Hneg). lia.
      - pose proof (Z.mod_pos_bound b a Hpos). lia. }
    destruct (IH (b mod a) a ltac:(lia)) as (g & v & u & Heq & Hbez & Hg).
    rewrite Heq. cbn [bind].
    exists g, (u - b / a * v), v. split; [reflexivity|]. split.
    + pose proof (Z.div_mod b a Ha). nia.
    + rewrite Hg, (Z.gcd_mod b a Ha).
      destruct (Z.lt_total a 0) as [Hneg|[?|Hpos]]; [|lia|].
      * pose proof (Z.mod_neg_bound b a Hneg).
        destruct (Z.ltb_spec 0 (b mod a)); [lia|].
        destruct (Z.ltb_spec 0 a); [lia|].
        destruct (Z.eqb_spec (b mod a) 0), (Z.leb_spec 0 a); cbn; lia.
      * pose proof (Z.mod_pos_bound b a Hpos).
        destruct (Z.ltb_spec 0 a); [|lia].
        destruct (Z.ltb_spec 0 (b mod a)); [reflexivity|].
        destruct (Z.eqb_spec (b mod a) 0), (Z.leb_spec 0 a); cbn; lia.
Qed.

Lemma egcd_spec (a b : Z) :
  exists g u v,
    Rsa.egcd a b = Ok (g, u, v) /\
    a * u + b * v = g /\
    g = signed_gcd a b.
Proof. apply egcd_fuel_spec. lia. Qed.

End Egcd.

(** The older module's kernel is the same code up to the names of its
    local variables. *)
Lemma egcd_fuel_old fuel a b : RsaOld.egcd_fuel fuel a b = Rsa.egcd_fuel fuel a b.
Proof. reflexivity. Qed.

Lemma egcd_old a b : RsaOld.egcd a b = Rsa.egcd a b.
Proof. reflexivity. Qed.

Lemma modinv_old a m : RsaOld.modinv a m = Rsa.modinv a m.
Proof. reflexivity. Qed.

(** More fuel never changes a finished run. *)
Lemma egcd_fuel_more (fuel : nat) :
  forall a b r fuel', Rsa.egcd_fuel fuel a b = Ok r -> (fuel <= fuel')%nat ->
  Rsa.egcd_fuel fuel' a b = Ok r.
Proof.
  induction fuel as [|fuel IH]; intros a b r fuel' Hrun Hle; [discriminate|].
  destruct fuel' as [|fuel']; [lia|].
  cbn [Rsa.egcd_fuel] in *.
  destruct (a =? 0); [exact Hrun|].
  destruct (py_mod b a) as [m|]; [|discriminate]. cbn [bind] in *.
  destruct (Rsa.egcd_fuel fuel m a) as [t|] eqn:Hrec; [|discriminate].
  rewrite (IH _ _ _ fuel' Hrec ltac:(lia)). exact Hrun.
Qed.

(** C9. [egcd] is total: for every pair of integers, negative and zero
    included, the recursion [egcd(b % a, a)] finishes, within [|a| + 1]
    calls, and returns a triple of integers; it raises nothing (the
    divisor of [%] and [//] is never zero).  Both copies of the function. *)
Theorem egcd_total (a b : Z) :
  exists g u v : Z,
    Rsa.egcd a b = Ok (g, u, v) /\
    RsaOld.egcd a b = Ok (g, u, v) /\
    forall fuel, (Z.to_nat (Z.abs a) < fuel)%nat ->
      Rsa.egcd_fuel fuel a b = Ok (g, u, v).
Proof.
  destruct (egcd_spec a b) as (g & u & v & Hrun & _).
  exists g, u, v. repeat split; trivial.
  intros fuel Hfuel. apply (egcd_fuel_more _ _ _ _ _ Hrun). lia.
Qed.

(** C3 (the code departs from the claim).  [egcd] documents its output as
    [gcd(a,b), u, v].  The identity [a*u + b*v = g] holds for every pair of
    integers, and [g] is [gcd(a, b)] when [a > 0], or [a = 0] and [b >= 0];
    on every other pair the first component comes out negated:
    [egcd(0, -5)] returns [(-5, 0, 1)] where the gcd is [5], and
    [egcd(-3, 5)] returns [(-1, 2, 1)] where the gcd is [1], so that the
    test [g != 1] of [modinv] rejects [-3] modulo [5] although the two are
    coprime.  Both copies of the function. *)
Theorem egcd_bezout :
  (forall a b : Z,
     exists g u v : Z,
       Rsa.egcd a b = Ok (g, u, v) /\
       RsaOld.egcd a b = Ok (g, u, v) /\
       a * u + b * v = g /\
       Z.abs g = Z.gcd a b /\
       g = if (0 <? a) || ((a =? 0) && (0 <=? b))
           then Z.gcd a b else - Z.gcd a b) /\
  (Rsa.egcd 0 (-5) = Ok (-5, 0, 1) /\ Z.gcd 0 (-5) = 5) /\
  (Rsa.egcd (-3) 5 = Ok (-1, 2, 1) /\ Z.gcd (-3) 5 = 1 /\
   Rsa.modinv (-3) 5 = Raise NotCoprime /\
   RsaOld.modinv (-3) 5 = Raise NotCoprime).
Proof.
  split; [|repeat split].
  intros a b.
  destruct (egcd_spec a b) as (g & u & v & Hrun & Hbez & Hg).
  exists g, u, v. repeat split; trivial.
  pose proof (Z.gcd_nonneg a b).
  rewrite Hg. destruct ((0 <? a) || ((a =? 0) && (0 <=? b))); lia.
Qed.

(** ** The modular inverse *)

Lemma modinv_inverse (a m : Z) :
  0 <= a -> 2 <= m -> Z.gcd a m = 1 ->
  exists r, Rsa.modinv a m = Ok r /\ 0 <= r < m /\ (a * r) mod m = 1.
Proof.
  intros Ha Hm Hgcd. unfold Rsa.modinv.
  destruct (egcd_spec a m) as (g & u & v & Hrun & Hbez & Hg).
  rewrite Hrun. cbn [bind].
  assert (g = 1) as ->.
  { rewrite Hg, Hgcd.
    destruct (Z.ltb_spec 0 a); [reflexivity|].
    assert (a = 0) as -> by lia. rewrite Z.gcd_0_l in Hgcd. lia. }
  cbn [Z.eqb negb]. unfold py_mod.
  destruct (Z.eqb_spec m 0); [lia|].
  exists (u mod m). split; [reflexivity|]. split.
  - apply Z.mod_pos_bound. lia.
  - rewrite Z.mul_mod_idemp_r by lia.
    replace (a * u) with (1 + (- v) * m) by lia.
    rewrite Z.mod_add by lia. apply Z.mod_1_l. lia.
Qed.

(** C2, as stated, fails in three places: modulo [1] the result [0] is
    no solution of [(a * x) % m == 1]; a negative [a] is rejected though
    coprime to [m]; and [modinv(1, 0)] divides by zero. *)
Lemma modinv_cex :
  (Z.gcd 1 1 = 1 /\ Rsa.modinv 1 1 = Ok 0 /\ (1 * 0) mod 1 <> 1) /\
  (Z.gcd (-3) 5 = 1 /\ Rsa.modinv (-3) 5 = Raise NotCoprime) /\
  (Z.gcd 1 0 = 1 /\ Rsa.modinv 1 0 = Raise ZeroDivisionError).
Proof. repeat split; discriminate. Qed.

(** C2, amended.  For every [a >= 0] and [m >= 2] with [gcd(a, m) = 1],
    [modinv(a, m)] returns a value in [[0, m)] with
    [(a * modinv(a, m)) % m == 1]; for every pair with [gcd(a, m) != 1]
    it raises the not-coprime error; and that error is its only failure
    for a modulus other than [0].  Both copies of the function. *)
Theorem modinv_spec (a m : Z) :
  (0 <= a -> 2 <= m -> Z.gcd a m = 1 ->
     exists r, Rsa.modinv a m = Ok r /\ RsaOld.modinv a m = Ok r /\
               0 <= r < m /\ (a * r) mod m = 1) /\
  (Z.gcd a m <> 1 ->
     Rsa.modinv a m = Raise NotCoprime /\ RsaOld.modinv a m = Raise NotCoprime) /\
  (forall e, m <> 0 -> Rsa.modinv a m = Raise e -> e = NotCoprime).
Proof.
  split; [|split].
  - intros Ha Hm Hgcd.
    destruct (modinv_inverse a m Ha Hm Hgcd) as (r & Hrun & Hrange & Hinv).
    exists r. change (RsaOld.modinv a m) with (Rsa.modinv a m). auto.
  - intros Hgcd. change (RsaOld.modinv a m) with (Rsa.modinv a m).
    enough (Rsa.modinv a m = Raise NotCoprime) by auto.
    unfold Rsa.modinv.
    destruct (egcd_spec a m) as (g & u & v & Hrun & Hbez & Hg).
    rewrite Hrun. cbn [bind].
    destruct (Z.eqb_spec g 1) as [->|]; [|reflexivity].
    exfalso. apply Hgcd.
    pose proof (Z.gcd_nonneg a m).
    destruct ((0 <? a) || ((a =? 0) && (0 <=? m))); lia.
  - intros e Hm. unfold Rsa.modinv.
    destruct (egcd_spec a m) as (g & u & v & Hrun & _).
    rewrite Hrun. cbn [bind].
    destruct (g =? 1); cbn [negb]; [|congruence].
    unfold py_mod. destruct (Z.eqb_spec m 0); [lia|discriminate].
Qed.

Lemma modinv_spec_witness :
  exists r, Rsa.modinv 17 3120 = Ok r /\ RsaOld.modinv 17 3120 = Ok r /\
            0 <= r < 3120 /\ (17 * r) mod 3120 = 1.
Proof.
  apply (proj1 (modinv_spec 17 3120)); [lia | lia | reflexivity].
Defined.

(** ** Folds *)

Lemma foldl_old {A B : Type} (op : A -> B -> result A) acc l :
  RsaOld.foldl op acc l = Rsa.foldl op acc l.
Proof. reflexivity. Qed.

(** In [src/crypto/asymmetric/rsa/rsa.py], [foldl1] is [foldl] started
    from the first element, and raises on a generator that yields nothing. *)
Lemma foldl1_first {A : Type} (op : A -> A -> result A) first rest :
  Rsa.foldl1 op (first :: rest) = Rsa.foldl op first rest.
Proof. reflexivity. Qed.

Lemma foldl1_empty {A : Type} (op : A -> A -> result A) :
  Rsa.foldl1 op [] = Raise StopIteration.
Proof. reflexivity. Qed.

(** C5 (the code departs from the claim).  In [src/crypto/rsa.py] the
    body of [foldl1] has no [return]: whenever the fold from the first
    element finishes, [foldl1] returns [None] and not the accumulator;
    [foldl1(add, iter([1, 2]))] is [None] where [foldl(add, 1, [2])] is [3].
    The copy in [src/crypto/asymmetric/rsa/rsa.py] does return the
    accumulator ([foldl1_first]). *)
Theorem foldl1_old_drops_accumulator :
  (forall (A : Type) (op : A -> A -> result A) first rest acc,
     RsaOld.foldl op first rest = Ok acc ->
     RsaOld.foldl1 op (first :: rest) = Ok None /\
     Rsa.foldl1 op (first :: rest) = Ok acc) /\
  RsaOld.foldl1 (fun a b => Ok (a + b)) [1; 2] = Ok None /\
  RsaOld.foldl (fun a b => Ok (a + b)) 1 [2] = Ok 3 /\
  RsaOld.foldl1 (fun a b : Z => Ok (a + b)) [] = Raise StopIteration.
Proof.
  split; [|repeat split].
  intros A op first rest acc Hfold.
  cbn [RsaOld.foldl1 Rsa.foldl1]. split; [rewrite Hfold; reflexivity | exact Hfold].
Qed.

(** ** Modulus and totient *)

Lemma foldl_mul (l : list Z) :
  forall acc, Rsa.foldl (fun a b => Ok (a * b)) acc l = Ok (fold_left Z.mul l acc).
Proof. induction l as [|x l IH]; intros acc; cbn; [reflexivity|apply IH]. Qed.

Lemma prod_ok (l : list Z) : Rsa.prod l = Ok (fold_left Z.mul l 1).
Proof. apply foldl_mul. Qed.

Lemma prod_old (l : list Z) : RsaOld.prod l = Rsa.prod l.
Proof. reflexivity. Qed.

Lemma fold_left_mul_acc (l : list Z) :
  forall acc, fold_left Z.mul l acc = acc * fold_left Z.mul l 1.
Proof.
  induction l as [|x l IH]; intros acc; cbn [fold_left]; [lia|].
  rewrite (IH (acc * x)), (IH (1 * x)). lia.
Qed.

Lemma fold_left_mul_cons x (l : list Z) :
  fold_left Z.mul (x :: l) 1 = x * fold_left Z.mul l 1.
Proof. cbn [fold_left]. rewrite fold_left_mul_acc. lia. Qed.

Lemma fold_left_mul_pos (l : list Z) :
  Forall (fun x => 1 <= x) l -> 1 <= fold_left Z.mul l 1.
Proof.
  induction 1 as [|x l Hx _ IH]; [cbn; lia|].
  rewrite fold_left_mul_cons. nia.
Qed.

(** In [src/crypto/asymmetric/rsa/rsa.py] the Carmichael branch is the
    fold of [lcm] over the [factor - 1] terms, for every non-empty list. *)
Lemma compute_phi_carmichael (factors : list Z) (method : string) :
  factors <> [] -> lower method = "carmichael"%string ->
  Rsa.compute_phi factors method =
  Rsa.foldl1 Rsa.lcm (map (fun x => x - 1) factors).
Proof.
  intros Hne Hm. unfold Rsa.compute_phi. rewrite Hm.
  destruct factors; [congruence|reflexivity].
Qed.

(** C4 (the code departs from the claim).  In
    [src/crypto/asymmetric/rsa/rsa.py] the Carmichael method returns the
    fold of [lcm] over the [factor - 1] terms for every non-empty factor
    list, [780 = lcm(60, 52)] for [p = 61], [q = 53], where the Euler
    method returns [3120].  In [src/crypto/rsa.py], [rsa_compute_phi]
    returns what its [foldl1] returns, which is [None]. *)
Theorem compute_phi_old_carmichael_none :
  (forall factors method,
     factors <> [] -> lower method = "carmichael"%string ->
     Rsa.compute_phi factors method =
     Rsa.foldl1 Rsa.lcm (map (fun x => x - 1) factors)) /\
  Rsa.compute_phi [61; 53] "euler" = Ok 3120 /\
  RsaOld.rsa_compute_phi [61; 53] "euler" = Ok (Some 3120) /\
  Rsa.compute_phi [61; 53] "carmichael" = Ok 780 /\
  Rsa.foldl1 Rsa.lcm [60; 52] = Ok 780 /\
  RsaOld.rsa_compute_phi [61; 53] "carmichael" = Ok None.
Proof. split; [exact compute_phi_carmichael | repeat split]. Qed.

(** ** The private exponent *)

(** C8, as stated, fails when [phi] has to be derived and its derivation
    raises first: with [e = 0] and an empty factor list the error is the
    invalid-input one of [compute_phi]. *)
Lemma compute_d_exponent_cex :
  0 < 1 /\
  Rsa.compute_d 0 unset (Some []) Rsa.PHI_EULER_TOTIENT = Raise InvalidInput /\
  RsaOld.rsa_compute_d 0 unset (Some []) RsaOld.PHI_EULER_TOTIENT = Raise InvalidInput.
Proof. repeat split. Qed.

(** C8, amended.  Every call to [compute_d] with [e < 1] fails.  The error
    is the invalid-exponent one when [phi >= 1] is supplied, whatever the
    factors are (the default [None] included), and when [phi] is derived
    from the factor list and [compute_phi] returns; when [compute_phi]
    raises, its error comes out instead (the totient is derived before the
    exponent is looked at), as does the [TypeError] of a factor list left
    at its default [None].  Both modules. *)
Theorem compute_d_nonpositive_exponent (e phi : Z)
    (factors : option (list Z)) (phi_method : string) :
  e < 1 ->
  (1 <= phi ->
     Rsa.compute_d e phi factors phi_method = Raise InvalidExponent /\
     RsaOld.rsa_compute_d e phi factors phi_method = Raise InvalidExponent) /\
  (forall fs, phi < 1 -> factors = Some fs ->
     Rsa.compute_d e phi factors phi_method =
       (_ <- Rsa.compute_phi fs phi_method ;; Raise InvalidExponent) /\
     RsaOld.rsa_compute_d e phi factors phi_method =
       (_ <- RsaOld.rsa_compute_phi fs phi_method ;; Raise InvalidExponent)) /\
  (phi < 1 -> factors = None ->
     Rsa.compute_d e phi factors phi_method = Raise TypeError /\
     RsaOld.rsa_compute_d e phi factors phi_method = Raise TypeError) /\
  is_ok (Rsa.compute_d e phi factors phi_method) = false /\
  is_ok (RsaOld.rsa_compute_d e phi factors phi_method) = false.
Proof.
  intros He. unfold Rsa.compute_d, RsaOld.rsa_compute_d.
  destruct (Z.ltb_spec e 1) as [_|]; [|lia].
  destruct (Z.ltb_spec phi 1) as [Hphi|Hphi]; cbn [bind].
  - split; [intros; lia|].
    split; [intros fs _ ->; split; reflexivity|].
    split; [intros _ ->; split; reflexivity|].
    destruct factors as [fs|]; [|split; reflexivity].
    split.
    + destruct (Rsa.compute_phi fs phi_method); reflexivity.
    + destruct (RsaOld.rsa_compute_phi fs phi_method); reflexivity.
  - split; [intros _; split; reflexivity|].
    split; [intros; lia|].
    split; [intros; lia|].
    split; reflexivity.
Qed.

Lemma compute_d_nonpositive_exponent_witness :
  (Rsa.compute_d 0 3120 None "euler" = Raise InvalidExponent /\
   RsaOld.rsa_compute_d 0 3120 None "euler" = Raise InvalidExponent) /\
  (Rsa.compute_d 0 3120 (Some [61; 53]) "euler" = Raise InvalidExponent /\
   RsaOld.rsa_compute_d 0 3120 (Some [61; 53]) "euler" = Raise InvalidExponent) /\
  Rsa.compute_d 0 unset (Some [61; 53]) "euler" = Raise InvalidExponent /\
  is_ok (Rsa.compute_d 0 unset None "euler") = false.
Proof.
  split; [|split; [|split]].
  - destruct (compute_d_nonpositive_exponent 0 3120 None "euler")
      as (Hsupplied & _); [lia|].
    apply Hsupplied. lia.
  - destruct (compute_d_nonpositive_exponent 0 3120 (Some [61; 53]) "euler")
      as (Hsupplied & _); [lia|].
    apply Hsupplied. lia.
  - destruct (compute_d_nonpositive_exponent 0 unset (Some [61; 53]) "euler")
      as (_ & Hderived & _); [lia|].
    destruct (Hderived [61; 53]) as [-> _]; reflexivity.
  - apply (compute_d_nonpositive_exponent 0 unset None "euler"). lia.
Defined.

(** ** Decryption *)

(** [decrypt] never looks at [phi_method]. *)
Lemma decrypt_phi_method_unused ct d n e factors phi phi_method phi_method' :
  Rsa.decrypt ct d n e factors phi phi_method =
  Rsa.decrypt ct d n e factors phi phi_method' /\
  RsaOld.rsa_decrypt ct d n e factors phi phi_method =
  RsaOld.rsa_decrypt ct d n e factors phi phi_method'.
Proof. split; reflexivity. Qed.

(** C7 (the code departs from the claim).  [decrypt] takes [phi_method]
    but calls [compute_d] without it, so the private exponent is always
    derived with the Euler method: for [e = 17], factors [61, 53] and the
    Carmichael method it is [2753 = 17^-1 mod 3120], where [compute_d]
    with that method gives [413 = 17^-1 mod 780].  With factors [3, 3] and
    [e = 3] the plaintext itself differs ([8], where the Carmichael exponent
    [1] gives [2]), and a method name that [compute_phi] rejects is
    accepted ([decrypt(8, e=3, factors=[3, 5], phi_method='rsa')] is [2]).
    Both modules. *)
Theorem decrypt_phi_method_dropped :
  (forall d e factors phi phi_method,
     Rsa.decrypt_d d e factors phi phi_method =
     Rsa.decrypt_d d e factors phi Rsa.PHI_EULER_TOTIENT /\
     RsaOld.rsa_decrypt_d d e factors phi phi_method =
     RsaOld.rsa_decrypt_d d e factors phi RsaOld.PHI_EULER_TOTIENT) /\
  (Rsa.decrypt_d unset 17 [61; 53] unset "carmichael" = Ok 2753 /\
   RsaOld.rsa_decrypt_d unset 17 [61; 53] unset "carmichael" = Ok 2753 /\
   Rsa.compute_phi [61; 53] "carmichael" = Ok 780 /\
   Rsa.modinv 17 780 = Ok 413 /\
   Rsa.compute_d 17 unset (Some [61; 53]) "carmichael" = Ok 413) /\
  (Rsa.decrypt 2 unset unset 3 [3; 3] unset "carmichael" = Ok 8 /\
   Rsa.compute_d 3 unset (Some [3; 3]) "carmichael" = Ok 1 /\
   Rsa.decrypt 2 1 unset 3 [3; 3] unset "carmichael" = Ok 2) /\
  (Rsa.compute_phi [61; 53] "rsa" = Raise InvalidMethod /\
   Rsa.decrypt 8 unset unset 3 [3; 5] unset "rsa" = Ok 2).
Proof.
  split; [intros; split; reflexivity|].
  vm_compute. repeat split.
Qed.

(** C10.  When [d >= 1] and [n >= 1] are supplied, [decrypt] returns
    [ct^d mod n] whatever [e], [phi], [factors] and [phi_method] are: two
    calls with the same [ct], [d] and [n] give the same result, and none
    of the other parameters is validated or read.  Both modules. *)
Theorem decrypt_supplied_key (ct d n : Z) :
  1 <= d -> 1 <= n ->
  forall e factors phi phi_method e' factors' phi' phi_method',
    Rsa.decrypt ct d n e factors phi phi_method = Ok (ct ^ d mod n) /\
    Rsa.decrypt ct d n e factors phi phi_method =
      Rsa.decrypt ct d n e' factors' phi' phi_method' /\
    RsaOld.rsa_decrypt ct d n e factors phi phi_method = Ok (ct ^ d mod n) /\
    RsaOld.rsa_decrypt ct d n e factors phi phi_method =
      RsaOld.rsa_decrypt ct d n e' factors' phi' phi_method'.
Proof.
  intros Hd Hn e factors phi phi_method e' factors' phi' phi_method'.
  unfold Rsa.decrypt, RsaOld.rsa_decrypt, Rsa.decrypt_d, RsaOld.rsa_decrypt_d, py_pow.
  do 2 branch_test. cbn [bind]. do 2 branch_test.
  repeat split.
Qed.

Lemma decrypt_supplied_key_witness :
  Rsa.decrypt 8 3 15 unset [] unset "euler" = Ok 2 /\
  Rsa.decrypt 8 3 15 unset [] unset "euler" =
    Rsa.decrypt 8 3 15 0 [4; 0] 7 "rsa".
Proof.
  destruct (decrypt_supplied_key 8 3 15 ltac:(lia) ltac:(lia)
              unset [] unset "euler" 0 [4; 0] 7 "rsa") as (Hval & Hsame & _).
  split; [rewrite Hval; vm_compute; reflexivity | exact Hsame].
Defined.

(** ** The two modules side by side *)

Lemma no_factor_below_one (factors : list Z) :
  Forall (fun x => 1 <= x) factors -> existsb (fun x => x <? 1) factors = false.
Proof.
  induction 1 as [|x l Hx _ IH]; [reflexivity|].
  cbn [existsb]. rewrite IH. destruct (Z.ltb_spec x 1); [lia|reflexivity].
Qed.

Section PositiveFactors.

Variable factors : list Z.
Hypothesis Hpos : Forall (fun x => 1 <= x) factors.

Lemma compute_n_agree :
  RsaOld.rsa_compute_n factors = Rsa.compute_n factors.
Proof.
  unfold RsaOld.rsa_compute_n, Rsa.compute_n.
  rewrite (no_factor_below_one _ Hpos), orb_false_r, prod_old, prod_ok.
  destruct (List.length factors <? 1)%nat; [reflexivity|]. cbn [bind].
  pose proof (fold_left_mul_pos _ Hpos).
  branch_test. reflexivity.
Qed.

Lemma compute_phi_agree (method : string) :
  lower method <> "carmichael"%string ->
  RsaOld.rsa_compute_phi factors method = fmap Some (Rsa.compute_phi factors method).
Proof.
  intros Hmethod. unfold RsaOld.rsa_compute_phi, Rsa.compute_phi.
  rewrite (no_factor_below_one _ Hpos), orb_false_r.
  unfold Rsa.PHI_EULER_TOTIENT, Rsa.PHI_CARMICHAEL_TOTIENT, str_in.
  cbn [existsb].
  destruct (String.eqb_spec (lower method) "euler") as [Heuler|Hother].
  - cbn [orb negb]. destruct (List.length factors <? 1)%nat; reflexivity.
  - destruct (String.eqb_spec (lower method) "carmichael"); [contradiction|].
    reflexivity.
Qed.

Lemma compute_d_agree (e phi : Z) (method : string) :
  1 <= phi \/ lower method <> "carmichael"%string ->
  RsaOld.rsa_compute_d e phi (Some factors) method =
  Rsa.compute_d e phi (Some factors) method.
Proof.
  intros Hcase. unfold RsaOld.rsa_compute_d, Rsa.compute_d.
  destruct (Z.ltb_spec phi 1) as [Hphi|Hphi]; [|reflexivity].
  destruct Hcase as [?|Hmethod]; [lia|].
  rewrite (compute_phi_agree _ Hmethod).
  destruct (Rsa.compute_phi factors method); reflexivity.
Qed.

Lemma encrypt_agree (pt e n : Z) :
  RsaOld.rsa_encrypt pt e n factors = Rsa.encrypt pt e n factors.
Proof.
  unfold RsaOld.rsa_encrypt, Rsa.encrypt. rewrite compute_n_agree. reflexivity.
Qed.

Lemma decrypt_agree (ct d n e phi : Z) (phi_method : string) :
  RsaOld.rsa_decrypt ct d n e factors phi phi_method =
  Rsa.decrypt ct d n e factors phi phi_method.
Proof.
  unfold RsaOld.rsa_decrypt, Rsa.decrypt, RsaOld.rsa_decrypt_d, Rsa.decrypt_d.
  rewrite compute_n_agree, (compute_d_agree e phi RsaOld.PHI_EULER_TOTIENT).
  - reflexivity.
  - right. discriminate.
Qed.

End PositiveFactors.


Section FactorBelowOne.

Variable factors : list Z.
Hypothesis Hbad : Exists (fun x => x < 1) factors.






End FactorBelowOne.







(** ** The round trip *)

(** The exponent cycle of a prime: Fermat's little theorem, with the
    multiples of [p] put back in. *)
Lemma pow_cycle_prime (p m k : Z) :
  Z.prime p -> 0 <= k -> m ^ (1 + k * (p - 1)) mod p = m mod p.
Proof.
  intros Hp Hk. pose proof (Z.prime_ge_2 p Hp) as Hp2.
  rewrite Z.pow_add_r, Z.pow_1_r by nia.
  destruct (Z.eq_dec (m mod p) 0) as [Hzero|Hunit].
  - rewrite <- Z.mul_mod_idemp_l, Hzero by lia. reflexivity.
  - rewrite (Z.mul_comm k), Z.pow_mul_r by lia.
    rewrite <- Z.mul_mod_idemp_r, <- Z.mod_pow_l by lia.
    rewrite (Z.fermat_nz p m Hp Hunit), Z.pow_1_l, Z.mod_1_l by lia.
    now rewrite Z.mul_1_r.
Qed.

Lemma totient_multiple (l : list Z) (p : Z) :
  In p l -> (p - 1 | fold_left Z.mul (map (fun x => x - 1) l) 1).
Proof.
  induction l as [|q l IH]; [contradiction|].
  cbn [map]. rewrite fold_left_mul_cons. intros [->|Hin].
  - apply Z.divide_factor_l.
  - apply Z.divide_mul_r, IH, Hin.
Qed.

Lemma prime_coprime_prod (p : Z) (l : list Z) :
  Z.prime p -> Forall Z.prime l -> ~ In p l ->
  Z.coprime p (fold_left Z.mul l 1).
Proof.
  intros Hp Hl. induction Hl as [|q l Hq _ IH]; intros Hnotin.
  - apply Z.coprime_1_r.
  - rewrite fold_left_mul_cons. apply Z.coprime_mul_r.
    + apply Z.coprime_prime_l; [exact Hp|].
      intros Hdiv. apply Hnotin. left.
      symmetry. apply Z.divide_prime_prime; assumption.
    + apply IH. intros Hin. apply Hnotin. right. exact Hin.
Qed.

(** Distinct primes that each divide [x] divide it together. *)
Lemma prod_primes_divide (l : list Z) (x : Z) :
  Forall Z.prime l -> NoDup l -> (forall p, In p l -> (p | x)) ->
  (fold_left Z.mul l 1 | x).
Proof.
  intros Hl. revert x. induction Hl as [|q l Hq Hl IH]; intros x Hnd Hall.
  - apply Z.divide_1_l.
  - rewrite fold_left_mul_cons.
    inversion Hnd as [|? ? Hnotin Hnd']; subst.
    destruct (Hall q (or_introl eq_refl)) as [k ->].
    assert (Hrest : (fold_left Z.mul l 1 | k)).
    { apply (Z.gauss _ q).
      - rewrite Z.mul_comm. apply IH; [exact Hnd'|].
        intros p Hin. apply Hall. right. exact Hin.
      - rewrite Z.gcd_comm. apply prime_coprime_prod; assumption. }
    destruct Hrest as [j ->]. exists j. lia.
Qed.

Lemma primes_ge_1 (l : list Z) :
  Forall Z.prime l -> Forall (fun x => 1 <= x) l.
Proof.
  intros Hl. eapply Forall_impl; [|exact Hl].
  intros p Hp. pose proof (Z.prime_ge_2 p Hp). lia.
Qed.

(** Raising to [e] and then to [d] modulo a product of distinct primes
    gives the residue back as soon as [e * d = 1] modulo the product of
    the [p - 1]. *)
Lemma pow_round_trip (l : list Z) (e d m : Z) :
  Forall Z.prime l -> NoDup l ->
  let n := fold_left Z.mul l 1 in
  let phi := fold_left Z.mul (map (fun x => x - 1) l) 1 in
  2 <= phi -> 0 <= e -> 0 <= d -> (e * d) mod phi = 1 -> 0 <= m < n ->
  (m ^ e mod n) ^ d mod n = m.
Proof.
  intros Hl Hnd n phi Hphi He Hd Hinv Hm.
  rewrite Z.mod_pow_l, <- Z.pow_mul_r by lia.
  rewrite <- (Z.mod_small m n) at 2 by lia.
  apply Z.cong_iff_0, Z.mod_divide; [lia|].
  apply prod_primes_divide; [exact Hl|exact Hnd|].
  intros p Hin.
  assert (Hp : Z.prime p) by (rewrite Forall_forall in Hl; auto).
  pose proof (Z.prime_ge_2 p Hp) as Hp2.
  destruct (totient_multiple l p Hin) as [c Hc]. fold phi in Hc.
  pose proof (Z.div_mod (e * d) phi ltac:(lia)) as Hed.
  assert (Hq : 0 <= e * d / phi) by (apply Z.div_pos; nia).
  assert (Hcpos : 0 <= c) by nia.
  apply Z.mod_divide; [lia|]. apply Z.cong_iff_0.
  rewrite Hinv in Hed. set (q := e * d / phi) in *.
  replace (e * d) with (1 + (q * c) * (p - 1)).
  - apply pow_cycle_prime; [exact Hp|nia].
  - rewrite Hed, Hc. ring.
Qed.


Lemma compute_n_inv (factors : list Z) (n : Z) :
  Rsa.compute_n factors = Ok n ->
  factors <> [] /\ n = fold_left Z.mul factors 1 /\ 1 <= n.
Proof.
  unfold Rsa.compute_n. rewrite prod_ok.
  destruct factors as [|p l]; [discriminate|].
  cbn [List.length Nat.ltb Nat.leb bind].
  destruct (Z.ltb_spec (fold_left Z.mul (p :: l) 1) 1); [discriminate|].
  intros [= <-]. repeat split; [discriminate|assumption].
Qed.

Lemma compute_phi_euler_inv (factors : list Z) (phi : Z) :
  Rsa.compute_phi factors Rsa.PHI_EULER_TOTIENT = Ok phi ->
  phi = fold_left Z.mul (map (fun x => x - 1) factors) 1.
Proof.
  unfold Rsa.compute_phi.
  destruct factors as [|p l]; [discriminate|].
  change (lower Rsa.PHI_EULER_TOTIENT) with "euler"%string.
  cbn [str_in existsb String.eqb Ascii.eqb Bool.eqb orb negb andb
       Rsa.PHI_EULER_TOTIENT Rsa.PHI_CARMICHAEL_TOTIENT List.length Nat.ltb Nat.leb].
  rewrite prod_ok. now intros [= <-].
Qed.

(** Trial division, to exhibit concrete primes. *)
Lemma prime_by_trial (p : Z) :
  1 < p ->
  forallb (fun k => negb (p mod Z.of_nat k =? 0)) (seq 2 (Z.to_nat p - 2)) = true ->
  Z.prime p.
Proof.
  intros Hp Htrial. split; [exact Hp|].
  intros k Hk Hdiv. rewrite forallb_forall in Htrial.
  specialize (Htrial (Z.to_nat k)).
  rewrite in_seq, Z2Nat.id in Htrial by lia.
  apply Z.mod_divide in Hdiv; [|lia].
  rewrite Hdiv in Htrial. discriminate Htrial. lia.
Qed.

(** C1, as stated, fails.  With the single prime factor [2] the totient is
    [1], every [e] is coprime to it and the derived [d] is [0], so [0] comes
    back as [0^0 mod 2 = 1]; with a repeated factor, [3, 3] and [e = 3],
    the message [3] comes back as [0]; with a composite factor, [4] and
    [e = 2], the message [2] comes back as [0]; and with [e = -1], coprime
    to everything, [decrypt] rejects the exponent. *)
Lemma round_trip_cex :
  (Rsa.compute_n [2] = Ok 2 /\ Rsa.compute_phi [2] "euler" = Ok 1 /\
   Z.gcd 1 1 = 1 /\ 0 <= 0 < 2 /\
   Rsa.encrypt 0 1 unset [2] = Ok 0 /\
   Rsa.decrypt 0 unset unset 1 [2] unset "euler" = Ok 1) /\
  (Rsa.compute_n [3; 3] = Ok 9 /\ Rsa.compute_phi [3; 3] "euler" = Ok 4 /\
   Z.gcd 3 4 = 1 /\ 0 <= 3 < 9 /\
   Rsa.encrypt 3 3 unset [3; 3] = Ok 0 /\
   Rsa.decrypt 0 unset unset 3 [3; 3] unset "euler" = Ok 0) /\
  (Rsa.compute_n [4] = Ok 4 /\ Rsa.compute_phi [4] "euler" = Ok 3 /\
   Z.gcd 2 3 = 1 /\ 0 <= 2 < 4 /\
   Rsa.encrypt 2 2 unset [4] = Ok 0 /\
   Rsa.decrypt 0 unset unset 2 [4] unset "euler" = Ok 0) /\
  (Rsa.compute_n [3; 5] = Ok 15 /\ Rsa.compute_phi [3; 5] "euler" = Ok 8 /\
   Z.gcd (-1) 8 = 1 /\ 0 <= 2 < 15 /\
   Rsa.encrypt 2 (-1) unset [3; 5] = Ok 8 /\
   Rsa.decrypt 8 unset unset (-1) [3; 5] unset "euler" = Raise InvalidExponent).
Proof. vm_compute. repeat split; discriminate. Qed.

(** C1, amended.  For every list of pairwise distinct primes with product
    [n] and Euler totient [phi > 1] (so not the single factor [2]), every
    public exponent [e >= 1] with [gcd(e, phi) = 1] and every message [m]
    with [0 <= m < n],
    [decrypt(encrypt(m, e, factors=factors), e=e, factors=factors)]
    returns [m].  Both modules. *)
Theorem rsa_round_trip (factors : list Z) (e m n phi : Z) :
  Forall Z.prime factors -> NoDup factors ->
  Rsa.compute_n factors = Ok n ->
  Rsa.compute_phi factors Rsa.PHI_EULER_TOTIENT = Ok phi ->
  1 < phi -> 1 <= e -> Z.gcd e phi = 1 -> 0 <= m < n ->
  exists c,
    Rsa.encrypt m e unset factors = Ok c /\
    Rsa.decrypt c unset unset e factors unset Rsa.PHI_EULER_TOTIENT = Ok m /\
    RsaOld.rsa_encrypt m e unset factors = Ok c /\
    RsaOld.rsa_decrypt c unset unset e factors unset RsaOld.PHI_EULER_TOTIENT = Ok m.
Proof.
  intros Hprime Hnd Hn Hphi Hphi1 He Hgcd Hm.
  pose proof (primes_ge_1 _ Hprime) as Hpos.
  destruct (compute_n_inv _ _ Hn) as (Hne & Hnval & Hn1).
  pose proof (compute_phi_euler_inv _ _ Hphi) as Hphival.
  destruct (modinv_inverse e phi ltac:(lia) ltac:(lia) Hgcd)
    as (d & Hd & Hdrange & Hinv).
  exists (m ^ e mod n).
  assert (Henc : Rsa.encrypt m e unset factors = Ok (m ^ e mod n)).
  { unfold Rsa.encrypt. cbn [unset Z.ltb Z.compare]. rewrite Hn. cbn [bind].
    unfold py_pow. do 2 branch_test. reflexivity. }
  assert (Hdec : Rsa.decrypt (m ^ e mod n) unset unset e factors unset
                   Rsa.PHI_EULER_TOTIENT = Ok m).
  { unfold Rsa.decrypt, Rsa.decrypt_d, Rsa.compute_d.
    cbn [unset Z.ltb Z.compare]. rewrite Hn, Hphi. cbn [bind].
    branch_test. rewrite Hd. cbn [bind].
    unfold py_pow. do 2 branch_test.
    f_equal. subst n phi.
    apply pow_round_trip; trivial; lia. }
  rewrite (encrypt_agree _ Hpos), (decrypt_agree _ Hpos). auto.
Qed.

Lemma rsa_round_trip_witness :
  exists c,
    Rsa.encrypt 65 17 unset [61; 53] = Ok c /\
    Rsa.decrypt c unset unset 17 [61; 53] unset Rsa.PHI_EULER_TOTIENT = Ok 65 /\
    RsaOld.rsa_encrypt 65 17 unset [61; 53] = Ok c /\
    RsaOld.rsa_decrypt c unset unset 17 [61; 53] unset RsaOld.PHI_EULER_TOTIENT = Ok 65.
Proof.
  apply (rsa_round_trip [61; 53] 17 65 3233 3120).
  - repeat constructor; apply prime_by_trial; [lia | reflexivity | lia | reflexivity].
  - repeat constructor; cbn; intuition discriminate.
  - reflexivity.
  - reflexivity.
  - lia.
  - lia.
  - reflexivity.
  - lia.
Defined.

(** ** The vectors of the specification *)

Example textbook_key :
  Rsa.compute_n [61; 53] = Ok 3233 /\
  Rsa.compute_d 17 unset (Some [61; 53]) Rsa.PHI_EULER_TOTIENT = Ok 2753 /\
  Rsa.encrypt 65 17 3233 [] = Ok 2790.
Proof. vm_compute. repeat split. Qed.

Example multiprime_key :
  Rsa.compute_n [3; 5; 7] = Ok 105 /\
  Rsa.compute_phi [3; 5; 7] "euler" = Ok 48.
Proof. vm_compute. repeat split. Qed.

Example boundary_errors :
  Rsa.compute_n [] = Raise InvalidInput /\
  Rsa.compute_phi [2] "rsa" = Raise InvalidMethod /\
  Rsa.modinv 4 8 = Raise NotCoprime.
Proof. vm_compute. repeat split. Qed.

(** * Further properties of the two modules *)

(** ** [lcm] *)

Lemma lcm_value (a b : Z) :
  Z.gcd a b <> 0 -> Rsa.lcm a b = Ok (a * (b / Z.gcd a b)).
Proof.
  intros Hg. unfold Rsa.lcm, py_floordiv.
  destruct (Z.eqb_spec (Z.gcd a b) 0); [contradiction|].
  rewrite (Z.divide_div_mul_exact b (Z.gcd a b) a Hg (Z.gcd_divide_r a b)).
  reflexivity.
Qed.



(** ** [foldl] and [prod] *)



Lemma fold_left_mul_perm (l l' : list Z) :
  Permutation l l' -> fold_left Z.mul l 1 = fold_left Z.mul l' 1.
Proof.
  induction 1 as [|x l l' _ IH|x y l|l l' l'' _ IH1 _ IH2].
  - reflexivity.
  - rewrite !fold_left_mul_cons, IH. reflexivity.
  - rewrite !fold_left_mul_cons. ring.
  - congruence.
Qed.

Lemma fold_left_mul_app (l1 l2 : list Z) :
  fold_left Z.mul (l1 ++ l2) 1 = fold_left Z.mul l1 1 * fold_left Z.mul l2 1.
Proof. rewrite fold_left_app. apply fold_left_mul_acc. Qed.

(** X3.  [prod] never raises; the product of no factor is [1], the
    product of a concatenation is the product of the products, and the
    product is [0] exactly when some factor is [0].  Both copies. *)
Theorem prod_spec (l1 l2 : list Z) :
  exists p1 p2,
    Rsa.prod l1 = Ok p1 /\ Rsa.prod l2 = Ok p2 /\
    Rsa.prod (l1 ++ l2) = Ok (p1 * p2) /\
    RsaOld.prod (l1 ++ l2) = Ok (p1 * p2) /\
    Rsa.prod [] = Ok 1 /\
    (p1 = 0 <-> In 0 l1).
Proof.
  exists (fold_left Z.mul l1 1), (fold_left Z.mul l2 1).
  change (RsaOld.prod (l1 ++ l2)) with (Rsa.prod (l1 ++ l2)).
  rewrite !prod_ok, fold_left_mul_app. repeat split; trivial.
  - induction l1 as [|x l IH]; [cbn; lia|].
    rewrite fold_left_mul_cons. intros Hz.
    destruct (Z.eq_dec x 0) as [->|Hx]; [now left|].
    right. apply IH. nia.
  - induction l1 as [|x l IH]; [contradiction|].
    rewrite fold_left_mul_cons. intros [->|Hin]; [lia|].
    rewrite (IH Hin). lia.
Qed.

(** ** [compute_n] *)

Lemma factors_checked (factors : list Z) :
  existsb (fun x => x <? 1) factors = false -> Forall (fun x => 1 <= x) factors.
Proof.
  induction factors as [|x l IH]; cbn [existsb]; [constructor|].
  intros Hno. apply orb_false_iff in Hno as [Hx Hl].
  constructor; [apply Z.ltb_ge, Hx | apply IH, Hl].
Qed.

(** X4.  A modulus returned by [compute_n] is at least [1] and comes from
    a non-empty factor list; the only error of [compute_n] and of
    [rsa_compute_n] is the invalid-input one.  Whenever the stricter
    [rsa_compute_n] returns a modulus every factor is at least [1] and
    [compute_n] returns the same modulus. *)
Theorem compute_n_result (factors : list Z) :
  (forall n, Rsa.compute_n factors = Ok n ->
     1 <= n /\ factors <> [] /\ Rsa.prod factors = Ok n) /\
  (forall err, Rsa.compute_n factors = Raise err -> err = InvalidInput) /\
  (forall n, RsaOld.rsa_compute_n factors = Ok n ->
     Forall (fun x => 1 <= x) factors /\ Rsa.compute_n factors = Ok n) /\
  (forall err, RsaOld.rsa_compute_n factors = Raise err -> err = InvalidInput).
Proof.
  split; [|split; [|split]].
  - intros n Hn. destruct (compute_n_inv _ _ Hn) as (Hne & -> & Hpos).
    rewrite prod_ok. auto.
  - intros err. unfold Rsa.compute_n. rewrite prod_ok.
    destruct (List.length factors <? 1)%nat; [congruence|]. cbn [bind].
    branch_test; congruence.
  - intros n. unfold RsaOld.rsa_compute_n.
    destruct (List.length factors <? 1)%nat eqn:Hlen; [discriminate|].
    destruct (existsb (fun x => x <? 1) factors) eqn:Hany; [discriminate|].
    cbn [orb]. intros Hprod.
    pose proof (factors_checked _ Hany) as Hpos. split; [exact Hpos|].
    rewrite <- (compute_n_agree _ Hpos). unfold RsaOld.rsa_compute_n.
    rewrite Hlen, Hany. exact Hprod.
  - intros err. unfold RsaOld.rsa_compute_n.
    change (RsaOld.prod factors) with (Rsa.prod factors). rewrite prod_ok.
    destruct (_ || _); congruence.
Qed.

(** ** The totients *)

Lemma lcm_positive (a b : Z) :
  1 <= a -> 1 <= b -> Rsa.lcm a b = Ok (Z.lcm a b) /\ 1 <= Z.lcm a b.
Proof.
  intros Ha Hb.
  assert (Hg : Z.gcd a b <> 0) by (rewrite Z.gcd_eq_0; lia).
  rewrite (lcm_value a b Hg). unfold Z.lcm.
  destruct (Z.gcd_divide_r a b) as [k Hk].
  pose proof (Z.gcd_nonneg a b).
  assert (Hq : b / Z.gcd a b = k) by (rewrite Hk at 1; apply Z.div_mul, Hg).
  rewrite Hq. assert (1 <= k) by nia.
  rewrite Z.abs_eq by nia. split; [reflexivity|nia].
Qed.

(** Folding [lcm] over positive terms yields their least common multiple. *)
Lemma foldl_lcm (l : list Z) :
  forall acc, 1 <= acc -> Forall (fun x => 1 <= x) l ->
  exists v,
    Rsa.foldl Rsa.lcm acc l = Ok v /\ 1 <= v /\ (acc | v) /\
    (forall x, In x l -> (x | v)) /\
    (forall c, (acc | c) -> (forall x, In x l -> (x | c)) -> (v | c)).
Proof.
  induction l as [|x l IH]; intros acc Hacc Hl.
  - exists acc. cbn [Rsa.foldl]. repeat split; auto using Z.divide_refl.
    intros ? [].
  - inversion Hl as [|? ? Hx Hl']; subst.
    destruct (lcm_positive acc x Hacc Hx) as [Hstep Hpos].
    destruct (IH (Z.lcm acc x) Hpos Hl') as (v & Hrun & Hv & Hdiv & Hall & Hleast).
    exists v. cbn [Rsa.foldl]. rewrite Hstep. cbn [bind].
    split; [exact Hrun|]. split; [exact Hv|].
    split; [exact (Z.divide_trans _ _ _ (Z.divide_lcm_l acc x) Hdiv)|].
    split.
    + intros y [<-|Hin]; [|auto].
      exact (Z.divide_trans _ _ _ (Z.divide_lcm_r acc x) Hdiv).
    + intros c Hc Hcs. apply Hleast.
      * apply Z.lcm_least; [exact Hc | apply Hcs; now left].
      * intros y Hin. apply Hcs. now right.
Qed.

Lemma terms_positive (factors : list Z) :
  Forall (fun x => 2 <= x) factors ->
  Forall (fun x => 1 <= x) (map (fun x => x - 1) factors).
Proof.
  intros Hl. apply Forall_map. eapply Forall_impl; [|exact Hl].
  cbn. intros; lia.
Qed.

Lemma carmichael_value (factors : list Z) (method : string) :
  factors <> [] -> Forall (fun x => 2 <= x) factors ->
  lower method = "carmichael"%string ->
  exists lam,
    Rsa.compute_phi factors method = Ok lam /\ 1 <= lam /\
    (forall p, In p factors -> (p - 1 | lam)) /\
    (forall c, (forall p, In p factors -> (p - 1 | c)) -> (lam | c)).
Proof.
  intros Hne Hl Hm. rewrite (compute_phi_carmichael _ _ Hne Hm).
  destruct factors as [|p l]; [congruence|].
  pose proof (terms_positive _ Hl) as Hterms.
  cbn [map] in *. inversion Hterms as [|? ? Hp Hrest]; subst.
  destruct (foldl_lcm _ _ Hp Hrest) as (v & Hrun & Hv & Hdiv & Hall & Hleast).
  exists v. cbn [Rsa.foldl1]. split; [exact Hrun|]. split; [exact Hv|]. split.
  - intros q [<-|Hin]; [exact Hdiv|].
    apply Hall, in_map_iff. exists q. auto.
  - intros c Hc. apply Hleast; [apply Hc; now left|].
    intros x Hin. apply in_map_iff in Hin as (q & <- & Hq).
    apply Hc. now right.
Qed.

(** X5.  For a non-empty list of factors that are all at least [2], the
    Carmichael method of [compute_phi] returns the least common multiple
    of the [factor - 1] terms: a positive number that every term divides
    and that divides every common multiple of the terms. *)
Theorem carmichael_is_least_common_multiple (factors : list Z) (method : string) :
  factors <> [] -> Forall (fun x => 2 <= x) factors ->
  lower method = "carmichael"%string ->
  exists lam,
    Rsa.compute_phi factors method = Ok lam /\ 1 <= lam /\
    (forall p, In p factors -> (p - 1 | lam)) /\
    (forall c, (forall p, In p factors -> (p - 1 | c)) -> (lam | c)).
Proof. exact (carmichael_value factors method). Qed.

Lemma carmichael_is_least_common_multiple_witness :
  exists lam,
    Rsa.compute_phi [61; 53] "Carmichael" = Ok lam /\ 1 <= lam /\
    (forall p, In p [61; 53] -> (p - 1 | lam)) /\
    (forall c, (forall p, In p [61; 53] -> (p - 1 | c)) -> (lam | c)).
Proof.
  apply (carmichael_is_least_common_multiple [61; 53] "Carmichael").
  - discriminate.
  - repeat constructor; lia.
  - reflexivity.
Defined.

Lemma compute_phi_euler (factors : list Z) (method : string) :
  factors <> [] -> lower method = "euler"%string ->
  Rsa.compute_phi factors method =
  Ok (fold_left Z.mul (map (fun x => x - 1) factors) 1).
Proof.
  intros Hne Hm. unfold Rsa.compute_phi. rewrite Hm, prod_ok.
  destruct factors; [congruence|reflexivity].
Qed.

Lemma totient_below_modulus (factors : list Z) :
  Forall (fun x => 2 <= x) factors ->
  1 <= fold_left Z.mul (map (fun x => x - 1) factors) 1
       <= fold_left Z.mul factors 1 /\
  (factors <> [] ->
   fold_left Z.mul (map (fun x => x - 1) factors) 1 < fold_left Z.mul factors 1).
Proof.
  induction 1 as [|p l Hp _ [IH _]]; [cbn; split; [lia|congruence]|].
  cbn [map]. rewrite !fold_left_mul_cons. split; [nia|intros _; nia].
Qed.

(** X6.  For a non-empty list of factors that are all at least [2] the
    three derived values are returned and satisfy
    [1 <= lambda <= phi < n], with the Carmichael value [lambda] a divisor
    of the Euler value [phi]. *)
Theorem totient_bounds (factors : list Z) :
  factors <> [] -> Forall (fun x => 2 <= x) factors ->
  exists n phi lam,
    Rsa.compute_n factors = Ok n /\
    Rsa.compute_phi factors Rsa.PHI_EULER_TOTIENT = Ok phi /\
    Rsa.compute_phi factors Rsa.PHI_CARMICHAEL_TOTIENT = Ok lam /\
    1 <= lam <= phi /\ phi < n /\ (lam | phi).
Proof.
  intros Hne Hl.
  destruct (totient_below_modulus _ Hl) as [[Hphi Hle] Hlt].
  specialize (Hlt Hne).
  destruct (carmichael_value factors Rsa.PHI_CARMICHAEL_TOTIENT Hne Hl eq_refl)
    as (lam & Hlam & Hpos & _ & Hleast).
  set (phi := fold_left Z.mul (map (fun x => x - 1) factors) 1) in *.
  assert (Hdiv : (lam | phi)) by (apply Hleast; intros p; apply totient_multiple).
  exists (fold_left Z.mul factors 1), phi, lam.
  split.
  { unfold Rsa.compute_n. rewrite prod_ok.
    destruct factors; [congruence|]. cbn [List.length Nat.ltb Nat.leb bind].
    branch_test. reflexivity. }
  split; [apply compute_phi_euler; [exact Hne|reflexivity]|].
  split; [exact Hlam|].
  pose proof (Z.divide_pos_le lam phi ltac:(lia) Hdiv). repeat split; trivial; lia.
Qed.

Lemma totient_bounds_witness :
  exists n phi lam,
    Rsa.compute_n [61; 53] = Ok n /\
    Rsa.compute_phi [61; 53] Rsa.PHI_EULER_TOTIENT = Ok phi /\
    Rsa.compute_phi [61; 53] Rsa.PHI_CARMICHAEL_TOTIENT = Ok lam /\
    1 <= lam <= phi /\ phi < n /\ (lam | phi).
Proof.
  apply (totient_bounds [61; 53]); [discriminate | repeat constructor; lia].
Defined.

(** X7.  In [src/crypto/rsa.py] the Carmichael method yields no usable
    totient: for a non-empty list of factors that are all at least [2],
    [rsa_compute_phi] returns [None], and [rsa_compute_d] with that method,
    [phi] left unset and [e >= 1], raises a [TypeError]. *)
Theorem rsa_compute_d_carmichael_type_error (e phi : Z) (factors : list Z)
    (method : string) :
  factors <> [] -> Forall (fun x => 2 <= x) factors ->
  lower method = "carmichael"%string -> phi < 1 -> 1 <= e ->
  RsaOld.rsa_compute_phi factors method = Ok None /\
  RsaOld.rsa_compute_d e phi (Some factors) method = Raise TypeError.
Proof.
  intros Hne Hl Hm Hphi He.
  destruct (carmichael_value factors method Hne Hl Hm) as (lam & Hlam & _).
  rewrite (compute_phi_carmichael _ _ Hne Hm) in Hlam.
  assert (Hnone : RsaOld.rsa_compute_phi factors method = Ok None).
  { unfold RsaOld.rsa_compute_phi. rewrite Hm.
    rewrite no_factor_below_one
      by (eapply Forall_impl; [|exact Hl]; cbn; intros; lia).
    destruct factors as [|p l]; [congruence|].
    cbn [map Rsa.foldl1] in Hlam.
    cbn [str_in existsb String.eqb Ascii.eqb Bool.eqb orb negb andb
         List.length Nat.ltb Nat.leb map RsaOld.foldl1].
    change (RsaOld.foldl RsaOld.lcm) with (Rsa.foldl Rsa.lcm).
    rewrite Hlam. reflexivity. }
  split; [exact Hnone|].
  unfold RsaOld.rsa_compute_d. rewrite Hnone.
  branch_test. cbn [bind]. branch_test. reflexivity.
Qed.

Lemma rsa_compute_d_carmichael_type_error_witness :
  RsaOld.rsa_compute_phi [61; 53] "carmichael" = Ok None /\
  RsaOld.rsa_compute_d 17 (-1) (Some [61; 53]) "carmichael" = Raise TypeError.
Proof.
  apply (rsa_compute_d_carmichael_type_error 17 (-1) [61; 53] "carmichael").
  - discriminate.
  - repeat constructor; lia.
  - reflexivity.
  - lia.
  - lia.
Defined.

(** ** More on the modular inverse *)

Lemma inverse_unique (m a d d' : Z) :
  0 <= d < m -> 0 <= d' < m ->
  (a * d) mod m = 1 -> (a * d') mod m = 1 -> d = d'.
Proof.
  intros Hd Hd' Hinv Hinv'.
  rewrite <- (Z.mod_small d m), <- (Z.mod_small d' m) by lia.
  replace (d mod m) with ((d * ((a * d') mod m)) mod m)
    by (now rewrite Hinv', Z.mul_1_r).
  rewrite Z.mul_mod_idemp_r by lia.
  replace (d * (a * d')) with ((a * d) * d') by ring.
  rewrite <- Z.mul_mod_idemp_l, Hinv, Z.mul_1_l by lia. reflexivity.
Qed.

Lemma inverse_coprime (m a r : Z) : (a * r) mod m = 1 -> Z.gcd r m = 1.
Proof.
  intros Hinv. apply Z.coprime_Bezout.
  destruct (Z.eq_dec m 0) as [->|Hm].
  - rewrite Z.mod_0_r in Hinv. exists a, 0. lia.
  - exists a, (- (a * r / m)).
    pose proof (Z.div_mod (a * r) m Hm). lia.
Qed.

Lemma modinv_not_coprime (a m : Z) :
  Z.gcd a m <> 1 -> Rsa.modinv a m = Raise NotCoprime.
Proof.
  intros Hgcd. unfold Rsa.modinv.
  destruct (egcd_spec a m) as (g & u & v & Hrun & Hbez & Hg).
  rewrite Hrun. cbn [bind].
  destruct (Z.eqb_spec g 1) as [->|]; [|reflexivity].
  exfalso. apply Hgcd. pose proof (Z.gcd_nonneg a m).
  destruct ((0 <? a) || ((a =? 0) && (0 <=? m))); lia.
Qed.

(** X8.  Inverting twice gives the residue back: for [a >= 0] and
    [m >= 2] coprime, [modinv(modinv(a, m), m)] is [a % m], and [modinv]
    only depends on [a % m]. *)
Theorem modinv_involution (a m : Z) :
  0 <= a -> 2 <= m -> Z.gcd a m = 1 ->
  exists r,
    Rsa.modinv a m = Ok r /\
    Rsa.modinv r m = Ok (a mod m) /\
    Rsa.modinv (a mod m) m = Ok r.
Proof.
  intros Ha Hm Hgcd.
  destruct (modinv_inverse a m Ha Hm Hgcd) as (r & Hr & Hrange & Hinv).
  exists r. split; [exact Hr|].
  pose proof (Z.mod_pos_bound a m ltac:(lia)) as Hamod.
  split.
  - destruct (modinv_inverse r m ltac:(lia) Hm (inverse_coprime m a r Hinv))
      as (r' & Hr' & Hrange' & Hinv').
    rewrite Hr'. f_equal.
    apply (inverse_unique m r); trivial.
    rewrite Z.mul_mod_idemp_r, Z.mul_comm by lia. exact Hinv.
  - assert (Hgcd' : Z.gcd (a mod m) m = 1) by (apply Z.coprime_mod_l_iff, Hgcd).
    destruct (modinv_inverse (a mod m) m ltac:(lia) Hm Hgcd')
      as (r' & Hr' & Hrange' & Hinv').
    rewrite Hr'. f_equal.
    apply (inverse_unique m (a mod m)); trivial.
    rewrite Z.mul_mod_idemp_l by lia. exact Hinv.
Qed.

Lemma modinv_involution_witness :
  exists r,
    Rsa.modinv 3137 3120 = Ok r /\
    Rsa.modinv r 3120 = Ok (3137 mod 3120) /\
    Rsa.modinv (3137 mod 3120) 3120 = Ok r.
Proof. apply (modinv_involution 3137 3120); [lia | lia | reflexivity]. Defined.

(** X9.  Modulo a prime [p], [modinv] never fails on a non-negative [a]
    that [p] does not divide, and its value is the Fermat inverse
    [a^(p-2) % p]. *)
Theorem modinv_prime (a p : Z) :
  Z.prime p -> 0 <= a -> a mod p <> 0 ->
  Rsa.modinv a p = Ok (a ^ (p - 2) mod p).
Proof.
  intros Hp Ha Hnz. pose proof (Z.prime_ge_2 p Hp) as Hp2.
  assert (Hgcd : Z.gcd a p = 1).
  { rewrite Z.gcd_comm. apply Z.coprime_prime_l; [exact Hp|].
    intros Hdiv. apply Hnz, Z.mod_divide; [lia|exact Hdiv]. }
  destruct (modinv_inverse a p Ha Hp2 Hgcd) as (r & Hr & Hrange & Hinv).
  rewrite Hr. f_equal.
  apply (inverse_unique p a); trivial.
  - apply Z.mod_pos_bound. lia.
  - rewrite Z.mul_mod_idemp_r, <- Z.pow_succ_r by lia.
    replace (Z.succ (p - 2)) with (p - 1) by lia.
    apply Z.fermat_nz; assumption.
Qed.

Lemma modinv_prime_witness : Rsa.modinv 17 61 = Ok (17 ^ (61 - 2) mod 61).
Proof.
  apply (modinv_prime 17 61).
  - apply prime_by_trial; [lia|reflexivity].
  - lia.
  - discriminate.
Defined.

(** ** More on the private exponent *)

(** X10.  With [e >= 1] and a supplied [phi >= 2], [compute_d] reads
    neither the factors nor the method.  When [e] and [phi] are coprime it
    returns the one [d] in [[1, phi)] with [(e * d) % phi == 1]; otherwise
    it raises the not-coprime error.  Both modules. *)
Theorem compute_d_inverse (e phi : Z) (factors : option (list Z))
    (phi_method : string) :
  1 <= e -> 2 <= phi ->
  (Z.gcd e phi = 1 ->
     exists d,
       Rsa.compute_d e phi factors phi_method = Ok d /\
       RsaOld.rsa_compute_d e phi factors phi_method = Ok d /\
       1 <= d < phi /\ (e * d) mod phi = 1 /\
       (forall d', 0 <= d' < phi -> (e * d') mod phi = 1 -> d' = d)) /\
  (Z.gcd e phi <> 1 ->
     Rsa.compute_d e phi factors phi_method = Raise NotCoprime /\
     RsaOld.rsa_compute_d e phi factors phi_method = Raise NotCoprime).
Proof.
  intros He Hphi.
  assert (Hnew : Rsa.compute_d e phi factors phi_method = Rsa.modinv e phi).
  { unfold Rsa.compute_d. do 1 branch_test. cbn [bind]. branch_test. reflexivity. }
  assert (Hold : RsaOld.rsa_compute_d e phi factors phi_method = Rsa.modinv e phi).
  { unfold RsaOld.rsa_compute_d. do 1 branch_test. cbn [bind]. branch_test.
    reflexivity. }
  rewrite Hnew, Hold. split.
  - intros Hgcd.
    destruct (modinv_inverse e phi ltac:(lia) Hphi Hgcd) as (d & Hd & Hrange & Hinv).
    exists d. repeat split; trivial; try lia.
    + destruct (Z.eq_dec d 0) as [->|]; [|lia].
      rewrite Z.mul_0_r, Z.mod_0_l in Hinv; lia.
    + intros d' Hd' Hinv'. apply (inverse_unique phi e); trivial.
  - intros Hgcd. rewrite (modinv_not_coprime _ _ Hgcd). auto.
Qed.

Lemma compute_d_inverse_witness :
  exists d,
    Rsa.compute_d 17 3120 None "euler" = Ok d /\
    RsaOld.rsa_compute_d 17 3120 None "euler" = Ok d /\
    1 <= d < 3120 /\ (17 * d) mod 3120 = 1 /\
    (forall d', 0 <= d' < 3120 -> (17 * d') mod 3120 = 1 -> d' = d).
Proof.
  apply (compute_d_inverse 17 3120 None "euler"); [lia | lia | reflexivity].
Defined.

Lemma fold_left_mul_zero (l : list Z) : In 0 l -> fold_left Z.mul l 1 = 0.
Proof.
  induction l as [|x l IH]; [contradiction|].
  rewrite fold_left_mul_cons. intros [->|Hin]; [lia|].
  rewrite (IH Hin). lia.
Qed.

Lemma modinv_zero_modulus (a : Z) :
  1 <= a ->
  Rsa.modinv a 0 = Raise (if a =? 1 then ZeroDivisionError else NotCoprime).
Proof.
  intros Ha. destruct (Z.eqb_spec a 1) as [->|Hne]; [reflexivity|].
  apply modinv_not_coprime. rewrite Z.gcd_0_r. lia.
Qed.

(** X11.  A factor equal to [1] makes the Euler totient [0], and the
    private exponent cannot be derived from such a list: with [phi] unset
    and [e >= 1], [compute_d] with the Euler method raises the not-coprime
    error, or a division by zero when [e = 1]. *)
Theorem compute_d_unit_factor (e phi : Z) (factors : list Z) (method : string) :
  In 1 factors -> lower method = "euler"%string -> phi < 1 -> 1 <= e ->
  Rsa.compute_phi factors method = Ok 0 /\
  Rsa.compute_d e phi (Some factors) method =
    Raise (if e =? 1 then ZeroDivisionError else NotCoprime).
Proof.
  intros Hin Hm Hphi He.
  assert (Hne : factors <> []) by (intros ->; contradiction).
  assert (Hzero : Rsa.compute_phi factors method = Ok 0).
  { rewrite (compute_phi_euler _ _ Hne Hm), fold_left_mul_zero; [reflexivity|].
    apply in_map_iff. exists 1. auto. }
  split; [exact Hzero|].
  unfold Rsa.compute_d. branch_test. rewrite Hzero. cbn [bind].
  branch_test. apply modinv_zero_modulus, He.
Qed.

Lemma compute_d_unit_factor_witness :
  Rsa.compute_phi [1; 7] "euler" = Ok 0 /\
  Rsa.compute_d 5 (-1) (Some [1; 7]) "euler" =
    Raise (if 5 =? 1 then ZeroDivisionError else NotCoprime).
Proof.
  apply (compute_d_unit_factor 5 (-1) [1; 7] "euler");
    [now left | reflexivity | lia | lia].
Defined.

(** ** More round trips *)

(** [pow_round_trip] for any exponent modulus [t] that every [p - 1]
    divides. *)
Lemma pow_round_trip_multiple (l : list Z) (e d m t : Z) :
  Forall Z.prime l -> NoDup l ->
  (forall p, In p l -> (p - 1 | t)) ->
  1 <= t -> 0 <= e -> 0 <= d -> (e * d) mod t = 1 ->
  0 <= m < fold_left Z.mul l 1 ->
  (m ^ e mod fold_left Z.mul l 1) ^ d mod fold_left Z.mul l 1 = m.
Proof.
  intros Hl Hnd Hmult Ht He Hd Hinv Hm.
  set (n := fold_left Z.mul l 1) in *.
  rewrite Z.mod_pow_l, <- Z.pow_mul_r by lia.
  rewrite <- (Z.mod_small m n) at 2 by lia.
  apply Z.cong_iff_0, Z.mod_divide; [lia|].
  apply prod_primes_divide; [exact Hl|exact Hnd|].
  intros p Hin.
  assert (Hp : Z.prime p) by (rewrite Forall_forall in Hl; auto).
  pose proof (Z.prime_ge_2 p Hp) as Hp2.
  destruct (Hmult p Hin) as [c Hc].
  pose proof (Z.div_mod (e * d) t ltac:(lia)) as Hed.
  assert (Hq : 0 <= e * d / t) by (apply Z.div_pos; nia).
  assert (Hcpos : 0 <= c) by nia.
  apply Z.mod_divide; [lia|]. apply Z.cong_iff_0.
  rewrite Hinv in Hed. set (q := e * d / t) in *.
  replace (e * d) with (1 + (q * c) * (p - 1)).
  - apply pow_cycle_prime; [exact Hp|nia].
  - rewrite Hed, Hc. ring.
Qed.

Lemma primes_ge_2 (l : list Z) :
  Forall Z.prime l -> Forall (fun x => 2 <= x) l.
Proof. intros Hl. eapply Forall_impl; [|exact Hl]. exact Z.prime_ge_2. Qed.

Lemma encrypt_derived (pt e n : Z) (factors : list Z) :
  Rsa.compute_n factors = Ok n -> 0 <= e ->
  Rsa.encrypt pt e unset factors = Ok (pt ^ e mod n).
Proof.
  intros Hn He. destruct (compute_n_inv _ _ Hn) as (_ & _ & Hn1).
  unfold Rsa.encrypt. cbn [unset Z.ltb Z.compare]. rewrite Hn. cbn [bind].
  unfold py_pow. do 2 branch_test. reflexivity.
Qed.

Lemma decrypt_supplied (ct d n e phi : Z) (factors : list Z) (pm : string) :
  1 <= d -> 1 <= n ->
  Rsa.decrypt ct d n e factors phi pm = Ok (ct ^ d mod n).
Proof.
  intros Hd Hn. unfold Rsa.decrypt, Rsa.decrypt_d, py_pow.
  do 2 branch_test. cbn [bind]. do 2 branch_test. reflexivity.
Qed.

Lemma decrypt_derived_modulus (ct d n e phi : Z) (factors : list Z) (pm : string) :
  1 <= d -> Rsa.compute_n factors = Ok n ->
  Rsa.decrypt ct d unset e factors phi pm = Ok (ct ^ d mod n).
Proof.
  intros Hd Hn. destruct (compute_n_inv _ _ Hn) as (_ & _ & Hn1).
  unfold Rsa.decrypt, Rsa.decrypt_d. cbn [unset Z.ltb Z.compare].
  rewrite Hn. cbn [bind]. branch_test. cbn [bind].
  unfold py_pow. do 2 branch_test. reflexivity.
Qed.

Lemma inverse_positive (e d phi : Z) :
  2 <= phi -> (e * d) mod phi = 1 -> d <> 0.
Proof. intros Hphi Hinv ->. rewrite Z.mul_0_r, Z.mod_0_l in Hinv; lia. Qed.

(** X12.  The exponent [compute_d] derives with the Carmichael method
    decrypts: for pairwise distinct primes with product [n] and Carmichael
    value [lambda > 1], [e >= 1] coprime to [lambda] and [0 <= m < n],
    passing that exponent to [decrypt] as [d] gives [m] back from
    [encrypt(m, e, factors=factors)]. *)
Theorem carmichael_exponent_decrypts (factors : list Z) (e m n lam : Z) :
  Forall Z.prime factors -> NoDup factors ->
  Rsa.compute_n factors = Ok n ->
  Rsa.compute_phi factors Rsa.PHI_CARMICHAEL_TOTIENT = Ok lam ->
  1 < lam -> 1 <= e -> Z.gcd e lam = 1 -> 0 <= m < n ->
  exists d c,
    Rsa.compute_d e unset (Some factors) Rsa.PHI_CARMICHAEL_TOTIENT = Ok d /\
    1 <= d < lam /\
    Rsa.encrypt m e unset factors = Ok c /\
    Rsa.decrypt c d unset e factors unset Rsa.PHI_CARMICHAEL_TOTIENT = Ok m.
Proof.
  intros Hprime Hnd Hn Hlam Hlam1 He Hgcd Hm.
  destruct (compute_n_inv _ _ Hn) as (Hne & Hnval & Hn1).
  destruct (carmichael_value factors Rsa.PHI_CARMICHAEL_TOTIENT Hne
              (primes_ge_2 _ Hprime) eq_refl) as (lam' & Hlam' & _ & Hmult & _).
  assert (lam' = lam) as -> by congruence.
  destruct (modinv_inverse e lam ltac:(lia) ltac:(lia) Hgcd)
    as (d & Hd & Hrange & Hinv).
  pose proof (inverse_positive e d lam ltac:(lia) Hinv).
  exists d, (m ^ e mod n).
  split.
  { unfold Rsa.compute_d. cbn [unset Z.ltb Z.compare]. rewrite Hlam. cbn [bind].
    branch_test. exact Hd. }
  split; [lia|].
  split; [apply encrypt_derived; [exact Hn|lia]|].
  rewrite (decrypt_derived_modulus _ d n) by (trivial; lia).
  f_equal. subst n.
  apply (pow_round_trip_multiple factors e d m lam); trivial; lia.
Qed.

Lemma carmichael_exponent_decrypts_witness :
  exists d c,
    Rsa.compute_d 17 unset (Some [61; 53]) Rsa.PHI_CARMICHAEL_TOTIENT = Ok d /\
    1 <= d < 780 /\
    Rsa.encrypt 65 17 unset [61; 53] = Ok c /\
    Rsa.decrypt c d unset 17 [61; 53] unset Rsa.PHI_CARMICHAEL_TOTIENT = Ok 65.
Proof.
  apply (carmichael_exponent_decrypts [61; 53] 17 65 3233 780).
  - repeat constructor; apply prime_by_trial; [lia | reflexivity | lia | reflexivity].
  - repeat constructor; cbn; intuition discriminate.
  - reflexivity.
  - reflexivity.
  - lia.
  - lia.
  - reflexivity.
  - lia.
Defined.

Lemma decrypt_derived (ct d n e phi : Z) (factors : list Z) (pm : string) :
  Rsa.compute_n factors = Ok n ->
  Rsa.compute_phi factors Rsa.PHI_EULER_TOTIENT = Ok phi ->
  1 <= e -> Rsa.modinv e phi = Ok d -> 0 <= d ->
  Rsa.decrypt ct unset unset e factors unset pm = Ok (ct ^ d mod n).
Proof.
  intros Hn Hphi He Hd Hd0. destruct (compute_n_inv _ _ Hn) as (_ & _ & Hn1).
  unfold Rsa.decrypt, Rsa.decrypt_d, Rsa.compute_d.
  cbn [unset Z.ltb Z.compare]. rewrite Hn, Hphi. cbn [bind].
  branch_test. rewrite Hd. cbn [bind].
  unfold py_pow. do 2 branch_test. reflexivity.
Qed.

(** X13.  The round trip the other way: for pairwise distinct primes with
    product [n] and Euler totient [phi > 1], [e >= 1] coprime to [phi] and
    [0 <= c < n],
    [encrypt(decrypt(c, e=e, factors=factors), e, factors=factors)]
    returns [c].  Both modules. *)
Theorem rsa_round_trip_reverse (factors : list Z) (e c n phi : Z) :
  Forall Z.prime factors -> NoDup factors ->
  Rsa.compute_n factors = Ok n ->
  Rsa.compute_phi factors Rsa.PHI_EULER_TOTIENT = Ok phi ->
  1 < phi -> 1 <= e -> Z.gcd e phi = 1 -> 0 <= c < n ->
  exists m,
    Rsa.decrypt c unset unset e factors unset Rsa.PHI_EULER_TOTIENT = Ok m /\
    Rsa.encrypt m e unset factors = Ok c /\
    RsaOld.rsa_decrypt c unset unset e factors unset RsaOld.PHI_EULER_TOTIENT = Ok m /\
    RsaOld.rsa_encrypt m e unset factors = Ok c.
Proof.
  intros Hprime Hnd Hn Hphi Hphi1 He Hgcd Hc.
  pose proof (primes_ge_1 _ Hprime) as Hpos.
  destruct (compute_n_inv _ _ Hn) as (Hne & Hnval & Hn1).
  pose proof (compute_phi_euler_inv _ _ Hphi) as Hphival.
  destruct (modinv_inverse e phi ltac:(lia) ltac:(lia) Hgcd)
    as (d & Hd & Hrange & Hinv).
  exists (c ^ d mod n).
  rewrite (encrypt_agree _ Hpos), (decrypt_agree _ Hpos).
  rewrite !(decrypt_derived c d n e phi) by (trivial; lia).
  rewrite (encrypt_derived _ e n) by (trivial; lia).
  enough ((c ^ d mod n) ^ e mod n = c) as -> by (repeat split).
  subst n phi. apply pow_round_trip; trivial; try lia.
  rewrite Z.mul_comm. exact Hinv.
Qed.

Lemma rsa_round_trip_reverse_witness :
  exists m,
    Rsa.decrypt 2790 unset unset 17 [61; 53] unset Rsa.PHI_EULER_TOTIENT = Ok m /\
    Rsa.encrypt m 17 unset [61; 53] = Ok 2790 /\
    RsaOld.rsa_decrypt 2790 unset unset 17 [61; 53] unset RsaOld.PHI_EULER_TOTIENT = Ok m /\
    RsaOld.rsa_encrypt m 17 unset [61; 53] = Ok 2790.
Proof.
  apply (rsa_round_trip_reverse [61; 53] 17 2790 3233 3120).
  - repeat constructor; apply prime_by_trial; [lia | reflexivity | lia | reflexivity].
  - repeat constructor; cbn; intuition discriminate.
  - reflexivity.
  - reflexivity.
  - lia.
  - lia.
  - reflexivity.
  - lia.
Defined.

(** X14.  The three ways of keying [decrypt] agree.  When the factors give
    the modulus [n] and the Euler totient [phi >= 2], and [e >= 1] is
    coprime to [phi], then for [d = compute_d(e, phi)] and every ciphertext
    the calls [decrypt(ct, e=e, factors=factors)],
    [decrypt(ct, n=n, e=e, phi=phi)] and [decrypt(ct, d=d, n=n)] all return
    [ct^d mod n]. *)
Theorem decrypt_keyings_agree (factors : list Z) (e n phi : Z) :
  Rsa.compute_n factors = Ok n ->
  Rsa.compute_phi factors Rsa.PHI_EULER_TOTIENT = Ok phi ->
  2 <= phi -> 1 <= e -> Z.gcd e phi = 1 ->
  exists d,
    Rsa.compute_d e phi None Rsa.PHI_EULER_TOTIENT = Ok d /\ 1 <= d < phi /\
    forall ct pm,
      Rsa.decrypt ct unset unset e factors unset pm = Ok (ct ^ d mod n) /\
      Rsa.decrypt ct unset n e [] phi pm = Ok (ct ^ d mod n) /\
      Rsa.decrypt ct d n unset [] unset pm = Ok (ct ^ d mod n).
Proof.
  intros Hn Hphi Hphi2 He Hgcd.
  destruct (compute_n_inv _ _ Hn) as (_ & _ & Hn1).
  destruct (modinv_inverse e phi ltac:(lia) Hphi2 Hgcd) as (d & Hd & Hrange & Hinv).
  pose proof (inverse_positive e d phi Hphi2 Hinv).
  exists d. split.
  { unfold Rsa.compute_d. branch_test. cbn [bind]. branch_test. exact Hd. }
  split; [lia|]. intros ct pm.
  split; [apply (decrypt_derived ct d n e phi); trivial; lia|].
  split; [|apply decrypt_supplied; lia].
  unfold Rsa.decrypt, Rsa.decrypt_d, Rsa.compute_d.
  cbn [unset Z.ltb Z.compare]. do 2 branch_test. cbn [bind].
  branch_test. rewrite Hd. cbn [bind].
  unfold py_pow. do 2 branch_test. reflexivity.
Qed.

Lemma decrypt_keyings_agree_witness :
  exists d,
    Rsa.compute_d 17 3120 None Rsa.PHI_EULER_TOTIENT = Ok d /\ 1 <= d < 3120 /\
    forall ct pm,
      Rsa.decrypt ct unset unset 17 [61; 53] unset pm = Ok (ct ^ d mod 3233) /\
      Rsa.decrypt ct unset 3233 17 [] 3120 pm = Ok (ct ^ d mod 3233) /\
      Rsa.decrypt ct d 3233 unset [] unset pm = Ok (ct ^ d mod 3233).
Proof.
  apply (decrypt_keyings_agree [61; 53] 17 3233 3120);
    [reflexivity | reflexivity | lia | lia | reflexivity].
Defined.

(** ** What [encrypt] and [decrypt] return *)

Lemma py_pow_range (base exp N c : Z) :
  1 <= N -> py_pow base exp N = Ok c -> 0 <= c < N.
Proof.
  intros HN. unfold py_pow.
  destruct (Z.eqb_spec N 0); [lia|].
  destruct (exp <? 0); [destruct (Z.gcd base N =? 1); [|discriminate]|];
    intros [= <-]; apply Z.mod_pos_bound; lia.
Qed.

Lemma rsa_compute_n_inv (factors : list Z) (n : Z) :
  RsaOld.rsa_compute_n factors = Ok n -> 1 <= n.
Proof.
  unfold RsaOld.rsa_compute_n.
  destruct (List.length factors <? 1)%nat; [discriminate|].
  destruct (existsb (fun x => x <? 1) factors) eqn:Hany; [discriminate|].
  cbn [orb]. change (RsaOld.prod factors) with (Rsa.prod factors).
  rewrite prod_ok. intros [= <-].
  apply fold_left_mul_pos, factors_checked, Hany.
Qed.

Lemma modulus_resolved (n : Z) (factors : list Z) (N : Z) :
  (if n <? 1 then Rsa.compute_n factors else Ok n) = Ok N -> 1 <= N.
Proof.
  destruct (Z.ltb_spec n 1); [|intros [= <-]; lia].
  intros HN. apply (compute_n_inv _ _ HN).
Qed.

Lemma modulus_resolved_old (n : Z) (factors : list Z) (N : Z) :
  (if n <? 1 then RsaOld.rsa_compute_n factors else Ok n) = Ok N -> 1 <= N.
Proof.
  destruct (Z.ltb_spec n 1); [|intros [= <-]; lia].
  apply rsa_compute_n_inv.
Qed.

(** X15.  Whatever [encrypt] or [decrypt] returns is a residue of the
    modulus in force: it is non-negative, below [n] when [n >= 1] is
    supplied, and below [compute_n(factors)] when [n] is derived.  Both
    modules, for every exponent, negative ones included. *)
Theorem transform_range (x n : Z) (factors : list Z) :
  (forall e y, Rsa.encrypt x e n factors = Ok y ->
     0 <= y /\ (1 <= n -> y < n) /\
     (forall N, n < 1 -> Rsa.compute_n factors = Ok N -> y < N)) /\
  (forall d e phi pm y, Rsa.decrypt x d n e factors phi pm = Ok y ->
     0 <= y /\ (1 <= n -> y < n) /\
     (forall N, n < 1 -> Rsa.compute_n factors = Ok N -> y < N)) /\
  (forall e y, RsaOld.rsa_encrypt x e n factors = Ok y ->
     0 <= y /\ (1 <= n -> y < n) /\
     (forall N, n < 1 -> RsaOld.rsa_compute_n factors = Ok N -> y < N)) /\
  (forall d e phi pm y, RsaOld.rsa_decrypt x d n e factors phi pm = Ok y ->
     0 <= y /\ (1 <= n -> y < n) /\
     (forall N, n < 1 -> RsaOld.rsa_compute_n factors = Ok N -> y < N)).
Proof.
  split; [|split; [|split]].
  - intros e y. unfold Rsa.encrypt.
    destruct (if n <? 1 then _ else _) as [N|] eqn:HN; [|discriminate].
    cbn [bind]. intros Hy.
    pose proof (py_pow_range _ _ _ _ (modulus_resolved _ _ _ HN) Hy).
    destruct (Z.ltb_spec n 1).
    + repeat split; try lia. intros N' _ HN'. assert (N' = N) by congruence. lia.
    + injection HN as <-. repeat split; lia.
  - intros d e phi pm y. unfold Rsa.decrypt.
    destruct (if n <? 1 then _ else _) as [N|] eqn:HN; [|discriminate].
    cbn [bind]. destruct (Rsa.decrypt_d d e factors phi pm); [|discriminate].
    cbn [bind]. intros Hy.
    pose proof (py_pow_range _ _ _ _ (modulus_resolved _ _ _ HN) Hy).
    destruct (Z.ltb_spec n 1).
    + repeat split; try lia. intros N' _ HN'. assert (N' = N) by congruence. lia.
    + injection HN as <-. repeat split; lia.
  - intros e y. unfold RsaOld.rsa_encrypt.
    destruct (if n <? 1 then _ else _) as [N|] eqn:HN; [|discriminate].
    cbn [bind]. intros Hy.
    pose proof (py_pow_range _ _ _ _ (modulus_resolved_old _ _ _ HN) Hy).
    destruct (Z.ltb_spec n 1).
    + repeat split; try lia. intros N' _ HN'. assert (N' = N) by congruence. lia.
    + injection HN as <-. repeat split; lia.
  - intros d e phi pm y. unfold RsaOld.rsa_decrypt.
    destruct (if n <? 1 then _ else _) as [N|] eqn:HN; [|discriminate].
    cbn [bind]. destruct (RsaOld.rsa_decrypt_d d e factors phi pm); [|discriminate].
    cbn [bind]. intros Hy.
    pose proof (py_pow_range _ _ _ _ (modulus_resolved_old _ _ _ HN) Hy).
    destruct (Z.ltb_spec n 1).
    + repeat split; try lia. intros N' _ HN'. assert (N' = N) by congruence. lia.
    + injection HN as <-. repeat split; lia.
Qed.

Lemma transform_range_witness :
  0 <= 2790 /\ (1 <= 3233 -> 2790 < 3233) /\
  (forall N, 3233 < 1 -> Rsa.compute_n [] = Ok N -> 2790 < N).
Proof.
  apply (proj1 (transform_range 65 3233 []) 17 2790). reflexivity.
Defined.

(** X16.  Textbook RSA is multiplicative.  For [e >= 0], when
    [encrypt(a, e, ...)] returns [ca] and [encrypt(b, e, ...)] returns [cb]
    under the same modulus arguments, [encrypt(a * b, e, ...)] returns
    [(ca * cb) % N] for the modulus [N] in force, and a plaintext shifted
    by [N] encrypts to the same ciphertext. *)
Theorem encrypt_multiplicative (a b e n : Z) (factors : list Z) (ca cb : Z) :
  0 <= e ->
  Rsa.encrypt a e n factors = Ok ca ->
  Rsa.encrypt b e n factors = Ok cb ->
  exists N,
    (if n <? 1 then Rsa.compute_n factors else Ok n) = Ok N /\ 1 <= N /\
    Rsa.encrypt (a * b) e n factors = Ok ((ca * cb) mod N) /\
    Rsa.encrypt (a + N) e n factors = Ok ca.
Proof.
  intros He. unfold Rsa.encrypt.
  destruct (if n <? 1 then _ else _) as [N|] eqn:HN; [|discriminate].
  pose proof (modulus_resolved _ _ _ HN) as HN1.
  cbn [bind]. unfold py_pow. do 2 branch_test.
  intros [= <-] [= <-]. exists N. repeat split; trivial.
  - rewrite Z.pow_mul_l, Z.mul_mod by lia. reflexivity.
  - rewrite <- Z.mod_pow_l.
    replace (a + N) with (a + 1 * N) by ring.
    rewrite Z.mod_add, Z.mod_pow_l by lia. reflexivity.
Qed.

Lemma encrypt_multiplicative_witness :
  exists N,
    (if 15 <? 1 then Rsa.compute_n [] else Ok 15) = Ok N /\ 1 <= N /\
    Rsa.encrypt (2 * 3) 3 15 [] = Ok ((8 * 12) mod N) /\
    Rsa.encrypt (2 + N) 3 15 [] = Ok 8.
Proof.
  apply (encrypt_multiplicative 2 3 3 15 [] 8 12); [lia | reflexivity | reflexivity].
Defined.

(** ** The order of the factors *)

Lemma compute_phi_invalid (factors : list Z) (method : string) :
  lower method <> "euler"%string -> lower method <> "carmichael"%string ->
  Rsa.compute_phi factors method = Raise InvalidMethod.
Proof.
  intros Hne Hnc. unfold Rsa.compute_phi, str_in,
    Rsa.PHI_EULER_TOTIENT, Rsa.PHI_CARMICHAEL_TOTIENT. cbn [existsb].
  destruct (String.eqb_spec (lower method) "euler"); [contradiction|].
  destruct (String.eqb_spec (lower method) "carmichael"); [contradiction|].
  reflexivity.
Qed.

Lemma compute_n_perm (fs fs' : list Z) :
  Permutation fs fs' -> Rsa.compute_n fs = Rsa.compute_n fs'.
Proof.
  intros Hperm. unfold Rsa.compute_n.
  rewrite !prod_ok, (Permutation_length Hperm), (fold_left_mul_perm _ _ Hperm).
  reflexivity.
Qed.

Lemma compute_phi_euler_perm (fs fs' : list Z) (method : string) :
  Permutation fs fs' -> lower method <> "carmichael"%string ->
  Rsa.compute_phi fs method = Rsa.compute_phi fs' method.
Proof.
  intros Hperm Hnc.
  destruct (String.eqb_spec (lower method) "euler") as [He|Hne].
  - unfold Rsa.compute_phi. rewrite He, !prod_ok, (Permutation_length Hperm).
    rewrite (fold_left_mul_perm _ _ (Permutation_map (fun x => x - 1) Hperm)).
    reflexivity.
  - rewrite !compute_phi_invalid by assumption. reflexivity.
Qed.

Lemma compute_phi_carmichael_perm (fs fs' : list Z) (method : string) :
  Permutation fs fs' -> Forall (fun x => 2 <= x) fs ->
  lower method = "carmichael"%string ->
  Rsa.compute_phi fs method = Rsa.compute_phi fs' method.
Proof.
  intros Hperm Hl Hm.
  destruct fs as [|p l].
  { apply Permutation_nil in Hperm. now subst. }
  assert (Hne : p :: l <> []) by discriminate.
  assert (Hne' : fs' <> []).
  { intros ->. apply Permutation_sym, Permutation_nil in Hperm. discriminate. }
  pose proof (Permutation_Forall Hperm Hl) as Hl'.
  destruct (carmichael_value _ _ Hne Hl Hm) as (v & Hv & Hpos & Hall & Hleast).
  destruct (carmichael_value _ _ Hne' Hl' Hm) as (v' & Hv' & Hpos' & Hall' & Hleast').
  rewrite Hv, Hv'. f_equal.
  apply Z.divide_antisym_nonneg; try lia.
  - apply Hleast. intros q Hq. apply Hall'. exact (Permutation_in q Hperm Hq).
  - apply Hleast'. intros q Hq. apply Hall.
    exact (Permutation_in q (Permutation_sym Hperm) Hq).
Qed.

(** X17.  The order of the factors does not matter: two lists that are
    permutations of each other give the same [compute_n], the same
    [compute_phi] for the Euler method or an unknown method name (and for
    the Carmichael method when every factor is at least [2]), the same
    [encrypt] and the same [decrypt], values and errors alike. *)
Theorem factor_order_irrelevant (fs fs' : list Z) :
  Permutation fs fs' ->
  Rsa.compute_n fs = Rsa.compute_n fs' /\
  (forall method, lower method <> "carmichael"%string ->
     Rsa.compute_phi fs method = Rsa.compute_phi fs' method) /\
  (forall method, Forall (fun x => 2 <= x) fs ->
     Rsa.compute_phi fs method = Rsa.compute_phi fs' method) /\
  (forall pt e n, Rsa.encrypt pt e n fs = Rsa.encrypt pt e n fs') /\
  (forall ct d n e phi pm,
     Rsa.decrypt ct d n e fs phi pm = Rsa.decrypt ct d n e fs' phi pm).
Proof.
  intros Hperm.
  split; [apply compute_n_perm, Hperm|].
  split; [intros; apply compute_phi_euler_perm; assumption|].
  split.
  { intros method Hl.
    destruct (String.eqb_spec (lower method) "carmichael").
    - apply compute_phi_carmichael_perm; assumption.
    - apply compute_phi_euler_perm; assumption. }
  split.
  - intros pt e n. unfold Rsa.encrypt. rewrite (compute_n_perm _ _ Hperm).
    reflexivity.
  - intros ct d n e phi pm.
    unfold Rsa.decrypt, Rsa.decrypt_d, Rsa.compute_d.
    rewrite (compute_n_perm _ _ Hperm).
    rewrite (compute_phi_euler_perm _ _ Rsa.PHI_EULER_TOTIENT Hperm)
      by discriminate.
    reflexivity.
Qed.

Lemma factor_order_irrelevant_witness :
  Rsa.compute_n [61; 53] = Rsa.compute_n [53; 61] /\
  (forall ct d n e phi pm,
     Rsa.decrypt ct d n e [61; 53] phi pm = Rsa.decrypt ct d n e [53; 61] phi pm).
Proof.
  destruct (factor_order_irrelevant [61; 53] [53; 61] (perm_swap 53 61 []))
    as (Hn & _ & _ & _ & Hdec).
  split; [exact Hn | exact Hdec].
Defined.

(** ** The depth of the recursion of [egcd] *)

(** Two calls at least halve the first argument. *)
Lemma mod_mod_halves (a b : Z) :
  a <> 0 -> b mod a <> 0 -> 2 * Z.abs (a mod (b mod a)) < Z.abs a.
Proof.
  intros Ha Hr.
  pose proof (Z.div_mod a (b mod a) Hr) as Hdiv.
  destruct (Z.lt_total a 0) as [Hneg|[?|Hpos]]; [|lia|].
  - pose proof (Z.mod_neg_bound b a Hneg) as Hr1.
    pose proof (Z.mod_neg_bound a (b mod a) ltac:(lia)) as Hr2.
    assert (1 <= a / (b mod a)).
    { destruct (Z.le_gt_cases (a / (b mod a)) 0) as [Hq|Hq]; [|lia].
      pose proof (Z.mul_nonpos_nonpos (b mod a) (a / (b mod a)) ltac:(lia) Hq).
      lia. }
    nia.
  - pose proof (Z.mod_pos_bound b a Hpos) as Hr1.
    pose proof (Z.mod_pos_bound a (b mod a) ltac:(lia)) as Hr2.
    assert (1 <= a / (b mod a)) by (apply Z.div_le_lower_bound; lia).
    nia.
Qed.

Lemma egcd_fuel_log (k : nat) :
  forall a b, Z.abs a < 2 ^ Z.of_nat k ->
  exists r, Rsa.egcd_fuel (S (2 * k)) a b = Ok r.
Proof.
  induction k as [|k IH]; intros a b Ha.
  - assert (a = 0) as -> by (cbn in Ha; lia). eexists. reflexivity.
  - replace (S (2 * S k)) with (S (S (S (2 * k)))) by lia.
    remember (S (2 * k)) as fuel eqn:Hfuel.
    cbn [Rsa.egcd_fuel].
    destruct (Z.eqb_spec a 0) as [->|Hnz]; [eexists; reflexivity|].
    unfold py_mod, py_floordiv.
    rewrite (proj2 (Z.eqb_neq a 0) Hnz). cbn [bind].
    destruct (Z.eqb_spec (b mod a) 0) as [Hz|Hr]; cbn [bind].
    + eexists. reflexivity.
    + assert (Hsmall : Z.abs (a mod (b mod a)) < 2 ^ Z.of_nat k).
      { pose proof (mod_mod_halves a b Hnz Hr).
        rewrite Nat2Z.inj_succ, Z.pow_succ_r in Ha by lia. lia. }
      destruct (IH (a mod (b mod a)) (b mod a) Hsmall) as ([[g v] u] & Hrun).
      rewrite Hrun. cbn [bind]. eexists. reflexivity.
Qed.

Lemma egcd_fuel_agree (f f' : nat) (a b : Z) (r r' : Z * Z * Z) :
  Rsa.egcd_fuel f a b = Ok r -> Rsa.egcd_fuel f' a b = Ok r' -> r = r'.
Proof.
  intros Hr Hr'.
  pose proof (egcd_fuel_more _ _ _ _ (Nat.max f f') Hr (Nat.le_max_l _ _)) as H1.
  pose proof (egcd_fuel_more _ _ _ _ (Nat.max f f') Hr' (Nat.le_max_r _ _)) as H2.
  congruence.
Qed.

(** X18.  The recursion of [egcd] is logarithmically deep: two calls at
    least halve the absolute value of the first argument, so for
    [|a| < 2^k] the call [egcd(a, b)] finishes within [2k + 1] nested calls
    (with the result of [egcd(a, b)]), whatever [b] is. *)
Theorem egcd_depth_logarithmic (k : nat) (a b : Z) :
  Z.abs a < 2 ^ Z.of_nat k ->
  Rsa.egcd_fuel (S (2 * k)) a b = Rsa.egcd a b /\
  RsaOld.egcd_fuel (S (2 * k)) a b = RsaOld.egcd a b /\
  exists g u v, Rsa.egcd a b = Ok (g, u, v).
Proof.
  intros Ha.
  destruct (egcd_fuel_log k a b Ha) as (r & Hr).
  destruct (egcd_spec a b) as (g & u & v & Hrun & _).
  assert (r = (g, u, v)) as -> by exact (egcd_fuel_agree _ _ _ _ _ _ Hr Hrun).
  change (RsaOld.egcd_fuel (S (2 * k)) a b) with (Rsa.egcd_fuel (S (2 * k)) a b).
  change (RsaOld.egcd a b) with (Rsa.egcd a b).
  rewrite Hr, Hrun. repeat split. exists g, u, v. reflexivity.
Qed.

Lemma egcd_depth_logarithmic_witness :
  Rsa.egcd_fuel (S (2 * 12)) 3120 17 = Rsa.egcd 3120 17 /\
  RsaOld.egcd_fuel (S (2 * 12)) 3120 17 = RsaOld.egcd 3120 17 /\
  exists g u v, Rsa.egcd 3120 17 = Ok (g, u, v).
Proof. apply (egcd_depth_logarithmic 12 3120 17). cbn. lia. Defined.

(** ** The two private exponents *)

(** X19.  For a non-empty list of factors that are all at least [2], with
    Carmichael value [lambda > 1], and [e >= 1] coprime to the Euler
    totient, [compute_d] returns an exponent with either method, and the
    Carmichael exponent is the Euler exponent reduced modulo [lambda]. *)
Theorem carmichael_exponent_is_reduced (factors : list Z) (e lam : Z) :
  Forall (fun x => 2 <= x) factors ->
  Rsa.compute_phi factors Rsa.PHI_CARMICHAEL_TOTIENT = Ok lam -> 1 < lam ->
  1 <= e ->
  (forall phi, Rsa.compute_phi factors Rsa.PHI_EULER_TOTIENT = Ok phi ->
               Z.gcd e phi = 1) ->
  exists d_euler d_carmichael,
    Rsa.compute_d e unset (Some factors) Rsa.PHI_EULER_TOTIENT = Ok d_euler /\
    Rsa.compute_d e unset (Some factors) Rsa.PHI_CARMICHAEL_TOTIENT = Ok d_carmichael /\
    d_carmichael = d_euler mod lam.
Proof.
  intros Hl Hlam Hlam1 He Hcoprime.
  assert (Hne : factors <> []) by (intros ->; discriminate).
  destruct (carmichael_value factors Rsa.PHI_CARMICHAEL_TOTIENT Hne Hl eq_refl)
    as (lam' & Hlam' & _ & _ & Hleast).
  assert (lam' = lam) as -> by congruence.
  pose proof (compute_phi_euler factors Rsa.PHI_EULER_TOTIENT Hne eq_refl) as Hphi.
  set (phi := fold_left Z.mul (map (fun x => x - 1) factors) 1) in *.
  assert (Hdiv : (lam | phi)) by (apply Hleast; intros p; apply totient_multiple).
  assert (Hphi2 : 2 <= phi).
  { pose proof (proj1 (proj1 (totient_below_modulus _ Hl))). fold phi in H.
    pose proof (Z.divide_pos_le lam phi ltac:(lia) Hdiv). lia. }
  destruct (modinv_inverse e phi ltac:(lia) Hphi2 (Hcoprime phi Hphi))
    as (de & Hde & Hrange & Hinv).
  assert (Hinv' : (e * (de mod lam)) mod lam = 1).
  { rewrite Z.mul_mod_idemp_r by lia.
    destruct Hdiv as [c Hc].
    pose proof (Z.div_mod (e * de) phi ltac:(lia)) as Hed.
    rewrite Hinv, Hc in Hed. rewrite Hed.
    replace (c * lam * (e * de / (c * lam)) + 1)
      with (1 + (c * (e * de / (c * lam))) * lam) by ring.
    rewrite Z.mod_add by lia. apply Z.mod_1_l. lia. }
  assert (Hgcd : Z.gcd e lam = 1).
  { apply (inverse_coprime lam (de mod lam) e).
    rewrite Z.mul_comm. exact Hinv'. }
  destruct (modinv_inverse e lam ltac:(lia) ltac:(lia) Hgcd)
    as (dc & Hdc & Hrangec & Hinvc).
  exists de, dc.
  unfold Rsa.compute_d. cbn [unset Z.ltb Z.compare].
  rewrite Hphi, Hlam. cbn [bind]. branch_test.
  split; [exact Hde|]. split; [exact Hdc|].
  apply (inverse_unique lam e); trivial.
  apply Z.mod_pos_bound. lia.
Qed.

Lemma carmichael_exponent_is_reduced_witness :
  exists d_euler d_carmichael,
    Rsa.compute_d 17 unset (Some [61; 53]) Rsa.PHI_EULER_TOTIENT = Ok d_euler /\
    Rsa.compute_d 17 unset (Some [61; 53]) Rsa.PHI_CARMICHAEL_TOTIENT = Ok d_carmichael /\
    d_carmichael = d_euler mod 780.
Proof.
  apply (carmichael_exponent_is_reduced [61; 53] 17 780).
  - repeat constructor; lia.
  - reflexivity.
  - lia.
  - lia.
  - intros phi [= <-]. reflexivity.
Defined.
